(** * interactive_plotting: the client-side scripts and assemblers of
    [bokeh_plots.py]

  The module embeds the parts of [bokeh_plots.py] that carry logic of their
  own: the histogram rebinning script [_inter_hist_js_code], the threshold
  script generated by [thresholding_hist], the hover and slider scripts of
  [link_plot], the kernel-expression evaluator [_smooth_expression._eval],
  the colour-mapper resolver [_create_mapper] and the slider bookkeeping of
  [interactive_hist].

  Numbers of the JavaScript side are modelled in exact arithmetic: a finite
  value is a rational, and the three non-finite values of the language are
  kept, because the scripts produce them (a division by a zero bin width, an
  [undefined] array cell used in arithmetic).  Zero is unsigned. *)

From Stdlib Require Import QArith Lia Lqa List Sorted Permutation.
From Stdlib Require Import String.
From stdpp Require Import base option list gmap strings.
Import ListNotations.

Local Open Scope nat_scope.

(** ** JavaScript numbers, in exact arithmetic *)

Module JS.

Inductive num : Type :=
| Fin (q : Q)
| PInf
| NInf
| NaN.

Definition of_nat (n : nat) : num := Fin (inject_Z (Z.of_nat n)).

Definition isNaN (a : num) : bool :=
  match a with NaN => true | _ => false end.

Definition neg (a : num) : num :=
  match a with
  | Fin q => Fin (- q)
  | PInf => NInf
  | NInf => PInf
  | NaN => NaN
  end.

Definition add (a b : num) : num :=
  match a, b with
  | NaN, _ | _, NaN => NaN
  | Fin p, Fin q => Fin (p + q)
  | PInf, NInf | NInf, PInf => NaN
  | PInf, _ | _, PInf => PInf
  | NInf, _ | _, NInf => NInf
  end.

Definition sub (a b : num) : num := add a (neg b).

(** Sign of a rational: [Lt] negative, [Eq] zero, [Gt] positive. *)
Definition sgn (q : Q) : comparison := (q ?= 0)%Q.

Definition mul (a b : num) : num :=
  match a, b with
  | NaN, _ | _, NaN => NaN
  | Fin p, Fin q => Fin (p * q)
  | Fin p, PInf | PInf, Fin p =>
      match sgn p with Eq => NaN | Gt => PInf | Lt => NInf end
  | Fin p, NInf | NInf, Fin p =>
      match sgn p with Eq => NaN | Gt => NInf | Lt => PInf end
  | PInf, PInf | NInf, NInf => PInf
  | PInf, NInf | NInf, PInf => NInf
  end.

Definition div (a b : num) : num :=
  match a, b with
  | NaN, _ | _, NaN => NaN
  | Fin p, Fin q =>
      match sgn q with
      | Eq => match sgn p with Eq => NaN | Gt => PInf | Lt => NInf end
      | _ => Fin (p / q)
      end
  | Fin _, (PInf | NInf) => Fin 0
  | PInf, Fin q => match sgn q with Lt => NInf | _ => PInf end
  | NInf, Fin q => match sgn q with Lt => PInf | _ => NInf end
  | (PInf | NInf), (PInf | NInf) => NaN
  end.

(** [a <= b]; every comparison with [NaN] is false. *)
Definition le (a b : num) : bool :=
  match a, b with
  | NaN, _ | _, NaN => false
  | Fin p, Fin q => Qle_bool p q
  | NInf, _ => true
  | _, PInf => true
  | _, _ => false
  end.

Definition ge (a b : num) : bool := le b a.

(** [a > b]. *)
Definition gt (a b : num) : bool :=
  match a, b with
  | NaN, _ | _, NaN => false
  | _, _ => negb (le a b)
  end.

(** The same value with its rational in lowest terms. *)
Definition norm (a : num) : num :=
  match a with Fin q => Fin (Qred q) | _ => a end.

(** A cell read from an array: a missing cell is [undefined], which is
    [NaN] as soon as it enters arithmetic or a comparison. *)
Definition get (x : list Q) (i : nat) : num :=
  match nth_error x i with
  | Some q => Fin q
  | None => NaN
  end.

Definition getn (x : list num) (i : nat) : num := nth i x NaN.

(** [arr.reduce((a, b) => a + b, 0)]. *)
Definition sum (l : list num) : num := fold_left add l (Fin 0).



End JS.

(** ** The histogram rebinning script, [_inter_hist_js_code]

    The samples are the finite numbers of [orig.data['values']]; [n_bins] is
    what [parseInt] reads from the slider. *)

Module Rebin.

Import JS.

(** [x.sort((a, b) => a - b)]: the numeric ascending sort. *)
Fixpoint insert_asc (a : Q) (l : list Q) : list Q :=
  match l with
  | [] => [a]
  | b :: t => if Qle_bool a b then a :: l else b :: insert_asc a t
  end.

Fixpoint sort_asc (l : list Q) : list Q :=
  match l with
  | [] => []
  | a :: t => insert_asc a (sort_asc t)
  end.

(** [(x[x.length - 1] - x[0]) / n_bins], on the sorted array. *)
Definition bin_size (x : list Q) (n_bins : nat) : num :=
  div (sub (get x (length x - 1)) (get x 0)) (of_nat n_bins).

Definition l_edges_of (x : list Q) (n_bins : nat) : list num :=
  map (fun i => add (get x 0) (mul (bin_size x n_bins) (of_nat i)))
      (seq 0 n_bins).

Definition r_edges_of (x : list Q) (n_bins : nat) : list num :=
  map (fun i => add (get x 0) (mul (bin_size x n_bins) (of_nat (i + 1))))
      (seq 0 n_bins).

(** The inner loop: the first [j] with [v <= r_edges[j]], scanning from
    [j], or nothing when the loop runs off the end. *)
Fixpoint first_bin_from (j : nat) (v : num) (edges : list num) : option nat :=
  match edges with
  | [] => None
  | e :: rest => if le v e then Some j else first_bin_from (S j) v rest
  end.

Definition first_bin (v : num) (edges : list num) : option nat :=
  first_bin_from 0 v edges.

(** The two arrays the loop updates. *)
Record tally : Type := Tally {
  counts : list nat;
  members : list (list nat)
}.

(** One turn of the outer loop, for the sample at position [i]. *)
Definition place (x : list Q) (edges : list num) (t : tally) (i : nat) : tally :=
  match first_bin (get x i) edges with
  | Some j => Tally (alter S j (counts t)) (alter (fun l => l ++ [i]) j (members t))
  | None => t
  end.

Definition fill (x : list Q) (edges : list num) (n_bins : nat) : tally :=
  fold_left (place x edges) (seq 0 (length x))
            (Tally (replicate n_bins 0) (replicate n_bins [])).

(** What the script leaves behind: the four columns of [source.data], and
    [orig.data['values']], which [sort] has reordered in place. *)
Record output : Type := Output {
  hist : list num;
  l_edges : list num;
  r_edges : list num;
  indices : list (list nat);
  values : list Q
}.

Definition widths (l r : list num) : list num :=
  imap (fun i c => sub c (getn l i)) r.

Definition density (cnt : list nat) (deltas : list num) : list num :=
  let total := JS.sum (map of_nat cnt) in
  imap (fun i c => div (div (of_nat c) (getn deltas i)) total) cnt.

Definition _inter_hist_js_code (samples : list Q) (n_bins : nat) : output :=
  let x := sort_asc samples in
  let l := l_edges_of x n_bins in
  let r := r_edges_of x n_bins in
  let t := fill x r n_bins in
  Output (density (counts t) (widths l r)) l r (members t) x.



(** The loop keeps one count and one index list per bin, and the count of
    a bin is the length of its index list. *)
Definition tally_ok (n : nat) (t : tally) : Prop :=
  length (counts t) = n /\ counts t = map (@length nat) (members t).

End Rebin.

(** The sample array of the worked example. *)
Definition example_samples : list Q := map inject_Z [1; 2; 2; 3; 4; 10]%Z.

Definition fins (l : list Z) : list JS.num := map (fun z => JS.Fin (inject_Z z)) l.

(** ** The thresholding view, [thresholding_hist] *)

Module Threshold.

Import JS.

(** The label of a bin or row that no declared category claims. *)
Definition default_label : string := "default"%string.

(** An array of strings on the JavaScript side; [None] is a cell that was
    never written ([undefined]). *)
Abbreviation cells := (list (option string)).

(** [arr[i] = v]: overwrites the cell, or extends the array up to it. *)
Definition js_set (l : cells) (i : nat) (v : string) : cells :=
  if i <? length l then <[i := Some v]> l
  else l ++ replicate (i - length l) None ++ [Some v].

(** The pair of text inputs of one category, [inp_min_<cat>] and
    [inp_max_<cat>], with the numbers [parseFloat] reads from them. *)
Record category : Type := Category {
  cat_name : string;
  cat_min : num;
  cat_max : num
}.


(** The two category columns the script writes: one cell per bin in
    [source.data], one cell per row in [orig.data]. *)
Record labels : Type := Labels {
  bin_category : cells;
  row_category : cells
}.

(** The body shared by every branch: label bin [i] and every row listed in
    its index list. *)
Definition assign (idx : list (list nat)) (cat : string) (i : nat) (lb : labels) : labels :=
  Labels (js_set (bin_category lb) i cat)
         (fold_left (fun rows ix => js_set rows ix cat) (nth i idx []) (row_category lb)).

(** The test of one branch, with [mid = (r_edges[i] - l_edges[i]) / 2]. *)
Definition branch_test (c : category) (l r : num) : bool :=
  let mid := div (sub r l) (Fin 2) in
  ge (add l mid) (cat_min c) && le (sub r mid) (cat_max c).

(** [' else '.join(code_thresh)]: the branches in the order of the loop,
    closed by the block that assigns ['default']. *)
Fixpoint run_chain (cs : list category) (idx : list (list nat)) (l r : num)
         (i : nat) (lb : labels) : labels :=
  match cs with
  | [] => assign idx default_label i lb
  | c :: rest =>
      if branch_test c l r then assign idx (cat_name c) i lb
      else run_chain rest idx l r i lb
  end.

(** The state of the view: the columns of [source] and [orig], and the
    inputs. *)
Record state : Type := State {
  hist : list num;
  l_edges : list num;
  r_edges : list num;
  indices : list (list nat);
  values : list Q;
  marks : labels;
  inputs : list category
}.

(** The loop of the script, [for (var i = 0; i < n; i++)], over the first
    [n] bins. *)
Definition pass (cs : list category) (idx : list (list nat)) (l r : list num)
           (n : nat) (lb : labels) : labels :=
  fold_left (fun lb i => run_chain cs idx (getn l i) (getn r i) i lb) (seq 0 n) lb.

(** The threshold script: one pass over the [source.data['hist'].length]
    bins. *)
Definition callback (st : state) : state :=
  State (hist st) (l_edges st) (r_edges st) (indices st) (values st)
        (pass (inputs st) (indices st) (l_edges st) (r_edges st)
              (length (hist st)) (marks st))
        (inputs st).

(** The rebinning script bound to the same [source] and [orig]. *)
Definition interactive_hist_cb (n_bins : nat) (st : state) : state :=
  let o := Rebin._inter_hist_js_code (values st) n_bins in
  State (Rebin.hist o) (Rebin.l_edges o) (Rebin.r_edges o) (Rebin.indices o)
        (Rebin.values o) (marks st) (inputs st).


Inductive bound : Type := Lower | Upper.

(** What the user can do: type a number in the input of a category, or move
    the bin slider. *)
Inductive event : Type :=
| Edit (cat : string) (b : bound) (v : num)
| Slide (n_bins : nat).

Definition set_bound (cat : string) (b : bound) (v : num) (c : category) : category :=
  if String.eqb (cat_name c) cat then
    match b with
    | Lower => Category (cat_name c) v (cat_max c)
    | Upper => Category (cat_name c) (cat_min c) v
    end
  else c.

Definition with_inputs (st : state) (cs : list category) : state :=
  State (hist st) (l_edges st) (r_edges st) (indices st) (values st) (marks st) cs.

(** [input.js_on_change('value', callback)] and
    [slider.js_on_change('value', interactive_hist_cb, callback)]. *)
Definition step (st : state) (e : event) : state :=
  match e with
  | Edit cat b v => callback (with_inputs st (map (set_bound cat b v) (inputs st)))
  | Slide n_bins => callback (interactive_hist_cb n_bins st)
  end.

Definition run (es : list event) (st : state) : state := fold_left step es st.

(** The rule in the words of the specification: the midpoint-trimmed interval
    of a bin, a boundary that contains it, and the first category, in the
    order given, whose boundary does. *)
Definition trimmed (l r : num) : num * num :=
  let mid := div (sub r l) (Fin 2) in (add l mid, sub r mid).

Definition contains (c : category) (iv : num * num) : bool :=
  le (cat_min c) (fst iv) && le (snd iv) (cat_max c).

Definition winner (cs : list category) (l r : num) : string :=
  match find (fun c => contains c (trimmed l r)) cs with
  | Some c => cat_name c
  | None => default_label
  end.

(** Every declared category with its starting boundary, in declaration
    order. *)
Definition declared (categories : list (string * (Q * Q))) : list category :=
  map (fun c => Category (fst c) (Fin (fst (snd c))) (Fin (snd (snd c)))) categories.


End Threshold.



(** ** The hover and slider scripts of [link_plot] *)

Module Link.

Import JS.

(** The part of the data source the scripts read: the distance matrix, whose
    column [j] is stored under the name [str(j)], and the [hl_key] column. *)
Record frame : Type := Frame {
  dmat : list (list num);
  hl_key : list string;
  cutoff : bool
}.

(** [source.data[first]]: a column of the distance matrix, or [undefined]. *)
Definition column (f : frame) (j : nat) : option (list num) :=
  if j <? length (dmat f) then Some (map (fun row => getn row j) (dmat f)) else None.

(** What the scripts change: [col.data['value']], the [hl_color] column
    ([None] once it has been overwritten with [undefined]), the upper bound
    of the colour mapper and the value of the slider. *)
Record state : Type := State {
  col_value : nat;
  hl_color : option (list num);
  mapper_high : num;
  slider_value : num
}.

(** [source.data['hl_key'][first] != source.data['hl_key'][i]]. *)
Definition key_differs (f : frame) (first i : nat) : bool :=
  negb (bool_decide (hl_key f !! first = hl_key f !! i)).

(** [update_color_code], on the column of row [first]. *)
Definition update_color_code (f : frame) (first : nat) (slider : num) (xs : list num) : list num :=
  imap (fun i x =>
          if isNaN x || (cutoff f && gt x slider) || key_differs f first i
          then NaN else x) xs.

(** The script of the slider.  When the column is missing the script throws
    at [.map], after the mapper has been updated. *)
Definition slider_callback (f : frame) (v : num) (st : state) : state :=
  let first := col_value st in
  match column f first with
  | Some xs => State first (Some (update_color_code f first v xs)) v v
  | None => State first (hl_color st) v v
  end.

(** The script of the hover tool, given [cb_data.index['1d'].indices]. *)
Definition hover_callback (f : frame) (ixs : list nat) (st : state) : state :=
  match ixs with
  | [] => st
  | first :: _ =>
      match column f first with
      | Some xs =>
          State first (Some (update_color_code f first (slider_value st) xs))
                (mapper_high st) (slider_value st)
      | None => State (col_value st) None (mapper_high st) (slider_value st)
      end
  end.

Inductive event : Type :=
| Hover (ixs : list nat)
| Slide (v : num).

Definition step (f : frame) (st : state) (e : event) : state :=
  match e with
  | Hover ixs => hover_callback f ixs st
  | Slide v => slider_callback f v st
  end.

Definition run (f : frame) (es : list event) (st : state) : state :=
  fold_left (step f) es st.

(** [start_ix = '0']; [df['hl_color'] = np.nan]. *)
Definition link_plot (f : frame) (high slider : num) : state :=
  State 0 (Some (replicate (length (dmat f)) NaN)) high slider.

End Link.

(** Three rows with their pairwise distances, in two groups. *)
Definition example_frame : Link.frame :=
  Link.Frame [fins [0; 1; 5]%Z; fins [1; 0; 3]%Z; fins [5; 3; 0]%Z]
             ["a"%string; "a"%string; "b"%string] true.

(** ** The kernel-expression evaluator, [_smooth_expression._eval] *)

Module Kernel.

(** The exceptions the evaluator can end with.  The specification calls the
    [ValueError] of an undeclared name [InvalidExpressionError]. *)
Inductive exn : Type :=
| ValueError
| KeyError
| TypeError
| AssertionError
| SyntaxError.

(** The operator classes of the [ast] module. *)
Inductive opclass : Type :=
| Add | Sub | Mult | MatMult | Div | Mod | Pow
| LShift | RShift | BitOr | BitXor | BitAnd | FloorDiv
| UAdd | USub | Not | Invert.

(** The expression tree, as far as [_eval] looks at it; [Other] is a node of
    any other class. *)
Inductive node : Type :=
| Num (n : Q)
| Name (id : string)
| BinOp (lhs : node) (op : opclass) (rhs : node)
| UnaryOp (op : opclass) (operand : node)
| Other.

(** A value stored in a parameter set. *)
Inductive pval : Type :=
| PStr (s : string)
| PNum (x : Q).

(** The kernel classes of the library. *)
Inductive kernel_class : Type :=
| ConstantKernel | WhiteKernel | RBF | Matern
| RationalQuadratic | ExpSineSquared | DotProduct | PairwiseKernel.

(** The [kernels] table. *)
Definition kernels (kernel_type : pval) : option kernel_class :=
  match kernel_type with
  | PStr s =>
      if String.eqb s "const" then Some ConstantKernel
      else if String.eqb s "white" then Some WhiteKernel
      else if String.eqb s "rbf" then Some RBF
      else if String.eqb s "mat" then Some Matern
      else if String.eqb s "rq" then Some RationalQuadratic
      else if String.eqb s "esn" then Some ExpSineSquared
      else if String.eqb s "dp" then Some DotProduct
      else if String.eqb s "pw" then Some PairwiseKernel
      else None
  | PNum _ => None
  end.

(** The three functions of the [operators] table. *)
Inductive operation : Type := op_add | op_mul | op_pow.

Definition operators (op : opclass) : option operation :=
  match op with
  | Add => Some op_add
  | Mult => Some op_mul
  | Pow => Some op_pow
  | _ => None
  end.

(** What an evaluation returns: a number, or an object of the library, which
    is written as the call that built it: a kernel class applied to keyword
    arguments, or one of the three operator functions applied to two
    values. *)
Inductive value : Type :=
| VNum (n : Q)
| Call (cls : kernel_class) (kwargs : gmap string pval)
| Apply (f : operation) (a b : value).

(** The two dictionaries the evaluator reads and, through [pop], changes. *)
Record store : Type := Store {
  kernel_params : gmap string (gmap string pval);
  kernel_default_params : gmap string pval
}.

(** A computation that reads and changes the store, or raises. *)
Definition M (A : Type) : Type := store -> exn + (A * store).

Definition ret {A : Type} (a : A) : M A := fun s => inr (a, s).

Definition raise {A : Type} (e : exn) : M A := fun _ => inl e.

Definition bind {A B : Type} (m : M A) (k : A -> M B) : M B :=
  fun s => match m s with
           | inl e => inl e
           | inr (a, s') => k a s'
           end.

Notation "'let*' x ':=' m 'in' k" := (bind m (fun x => k))
  (at level 10, x name, m at level 100, k at level 200).

Section Evaluator.

(** The library: whether building a kernel from keyword arguments, or
    combining two values with an operator function, raises. *)
Variable ctor_raises : kernel_class -> gmap string pval -> option exn.
Variable op_raises : operation -> value -> value -> option exn.

(** The argument [default]. *)
Variable default : bool.

(** [kernel_params.get(node.id, kernel_default_params)] followed by
    [params.pop('type', 'rbf')]: the parameter set found, the kernel type,
    and the store after the pop, which has changed the dictionary that was
    found. *)
Definition popped (params : gmap string pval) : pval :=
  match params !! "type"%string with
  | Some t => t
  | None => PStr "rbf"
  end.

Definition pop_type (id : string) : M (pval * gmap string pval) :=
  fun s =>
    match kernel_params s !! id with
    | Some params =>
        let rest := delete "type"%string params in
        inr ((popped params, rest),
             Store (<[id := rest]> (kernel_params s)) (kernel_default_params s))
    | None =>
        let params := kernel_default_params s in
        let rest := delete "type"%string params in
        inr ((popped params, rest), Store (kernel_params s) rest)
    end.

Definition declared (id : string) : M bool :=
  fun s => inr (bool_decide (is_Some (kernel_params s !! id)), s).

(** The call of [kernels[kernel_type]] with [params] as keyword arguments. *)
Definition build (kernel_type : pval) (kwargs : gmap string pval) : M value :=
  match kernels kernel_type with
  | None => raise KeyError
  | Some cls =>
      match ctor_raises cls kwargs with
      | Some e => raise e
      | None => ret (Call cls kwargs)
      end
  end.

Definition call (f : operation) (a b : value) : M value :=
  match op_raises f a b with
  | Some e => raise e
  | None => ret (Apply f a b)
  end.

Fixpoint _eval (n : node) : M value :=
  match n with
  | Num x => ret (VNum x)
  | Name id =>
      let* known := declared id in
      if negb default && negb known then raise ValueError
      else
        let* tp := pop_type id in
        build (fst tp) (snd tp)
  | BinOp lhs op rhs =>
      match operators op with
      | None => raise KeyError
      | Some f =>
          let* a := _eval lhs in
          let* b := _eval rhs in
          call f a b
      end
  | UnaryOp op operand =>
      match operators op with
      | None => raise KeyError
      | Some _ =>
          let* a := _eval operand in
          raise TypeError
      end
  | Other => raise TypeError
  end.

(** The parser, [ast.parse(kernel_expr, mode='eval').body]. *)
Variable parse : string -> exn + node.

(** The kernel of the Gaussian-process branch of [_smooth_expression]. *)
Definition gp_kernel (kernel_expr : option string) : M value :=
  fun s =>
    let chosen :=
      match kernel_expr with
      | Some text => inr text
      | None =>
          match map_to_list (kernel_params s) with
          | [(key, _)] => inr key
          | _ => inl AssertionError
          end
      end in
    match chosen with
    | inl e => inl e
    | inr text =>
        match parse text with
        | inl e => inl e
        | inr tree => _eval tree s
        end
    end.

End Evaluator.

(** A name occurs in the part of the tree the evaluator walks. *)
Fixpoint references (id : string) (n : node) : Prop :=
  match n with
  | Name id' => id' = id
  | BinOp lhs _ rhs => references id lhs \/ references id rhs
  | UnaryOp _ operand => references id operand
  | Num _ | Other => False
  end.

(** The trees of the grammar: numbers and names under [+], [*] and [**]. *)
Fixpoint in_grammar (n : node) : Prop :=
  match n with
  | Num _ | Name _ => True
  | BinOp lhs op rhs => is_Some (operators op) /\ in_grammar lhs /\ in_grammar rhs
  | UnaryOp _ _ | Other => False
  end.

(** Every declared parameter set names a kernel of the table, or none. *)
Definition types_known (s : store) : Prop :=
  forall id params t,
    kernel_params s !! id = Some params -> params !! "type"%string = Some t ->
    is_Some (kernels t).

(** Two stores declare the same names. *)
Definition same_names (s s' : store) : Prop :=
  forall id, kernel_params s' !! id = None <-> kernel_params s !! id = None.

(** A library none of whose calls raises. *)
Definition ctor_total : kernel_class -> gmap string pval -> option exn := fun _ _ => None.
Definition op_total : operation -> value -> value -> option exn := fun _ _ _ => None.

End Kernel.

(** The worked example: the tree of ["(a + b) ** 2"], and parameter sets for
    a constant kernel [a] and a dot-product kernel [b]. *)
Definition example_text : string := "(a + b) ** 2"%string.

Definition example_tree : Kernel.node :=
  Kernel.BinOp (Kernel.BinOp (Kernel.Name "a") Kernel.Add (Kernel.Name "b"))
               Kernel.Pow (Kernel.Num 2).

Definition example_parse (text : string) : Kernel.exn + Kernel.node :=
  if String.eqb text example_text then inr example_tree else inl Kernel.SyntaxError.

Definition example_a : gmap string Kernel.pval :=
  {[ "type"%string := Kernel.PStr "const"; "constant_value"%string := Kernel.PNum 1 ]}.

Definition example_b : gmap string Kernel.pval :=
  {[ "type"%string := Kernel.PStr "dp"; "sigma_0"%string := Kernel.PNum 2 ]}.

Definition example_store : Kernel.store :=
  Kernel.Store {[ "a"%string := example_a; "b"%string := example_b ]} ∅.

(** The object the worked example must build, [(Constant + Linear) ** 2]. *)
Definition example_kernel : Kernel.value :=
  Kernel.Apply Kernel.op_pow
    (Kernel.Apply Kernel.op_add
       (Kernel.Call Kernel.ConstantKernel {[ "constant_value"%string := Kernel.PNum 1 ]})
       (Kernel.Call Kernel.DotProduct {[ "sigma_0"%string := Kernel.PNum 2 ]}))
    (Kernel.VNum 2).

(** ** The colour-mapper resolver, [_create_mapper] *)

Module Mapper.

Inductive exn : Type :=
| AssertionError
| ValueError
| IndexError.

(** A column of [adata.obs]: a categorical column, with the categories its
    type records and one code per row ([None] for a missing value), or a
    column of numbers.  Categories are strings, which [str] leaves as they
    are. *)
Inductive column : Type :=
| Categorical (categories : list string) (codes : list (option nat))
| Numeric (vals : list Q).

Record AnnData : Type := {
  obs : gmap string column;
  var_names : list string;
  X : list (list Q);
  uns : gmap string (list string);
  n_obs : nat
}.

(** A palette, written as the way it was obtained: the colours stored in
    [adata.uns], or the viridis colour map with [n] levels read at the given
    positions.  Both go through [to_hex_palette]. *)
Inductive palette : Type :=
| Stored (colors : list string)
| Viridis (n : nat) (positions : list nat).

(** A bound of a linear mapper; [None] is not-a-number. *)
Inductive ColorMapper : Type :=
| CategoricalColorMapper (p : palette) (factors : list string)
| LinearColorMapper (p : palette) (low high : option Q).

(** The values of a categorical column, row by row. *)
Definition observed (categories : list string) (codes : list (option nat))
  : list (option string) :=
  map (fun c => match c with Some k => nth_error categories k | None => None end) codes.

(** [unique()]: the distinct values in the order they first appear. *)
Fixpoint unique (l : list (option string)) : list (option string) :=
  match l with
  | [] => []
  | v :: rest => v :: filter (fun w => negb (bool_decide (w = v))) (unique rest)
  end.

(** The position [dict(zip(vals, range(len(vals))))] gives a value: that of
    its last occurrence. *)
Fixpoint last_index {A : Type} (same : A -> A -> bool) (v : A) (vals : list A) : option nat :=
  match vals with
  | [] => None
  | w :: rest =>
      match last_index same v rest with
      | Some k => Some (S k)
      | None => if same v w then Some 0 else None
      end
  end.

Definition positions {A : Type} (same : A -> A -> bool) (vals : list A) : list nat :=
  map (fun v => match last_index same v vals with Some k => k | None => 0 end) vals.

(** [np.where(adata.var_names == key)[0][0]], for a key that is among the
    names. *)
Fixpoint index_of (key : string) (names : list string) : option nat :=
  match names with
  | [] => None
  | n :: rest => if String.eqb n key then Some 0
                 else match index_of key rest with
                      | Some k => Some (S k)
                      | None => None
                      end
  end.

(** [adata.X[:, ix]]. *)
Fixpoint column_of (rows : list (list Q)) (ix : nat) : option (list Q) :=
  match rows with
  | [] => Some []
  | row :: rest =>
      match nth_error row ix, column_of rest ix with
      | Some v, Some vs => Some (v :: vs)
      | _, _ => None
      end
  end.

(** The smallest and the largest cell of a non-empty array. *)
Definition least (first : Q) (rest : list Q) : Q :=
  fold_left (fun m v => if Qle_bool m v then m else v) rest first.

Definition greatest (first : Q) (rest : list Q) : Q :=
  fold_left (fun m v => if Qle_bool v m then m else v) rest first.

(** [np.min] and [np.max] of a list: an empty list raises. *)
Definition np_min (vals : list Q) : exn + Q :=
  match vals with [] => inl ValueError | v :: rest => inr (least v rest) end.

Definition np_max (vals : list Q) : exn + Q :=
  match vals with [] => inl ValueError | v :: rest => inr (greatest v rest) end.

(** [np.min] and [np.max] of a column of [adata.obs]: an empty column gives
    not-a-number. *)
Definition series_min (vals : list Q) : option Q :=
  match vals with [] => None | v :: rest => Some (least v rest) end.

Definition series_max (vals : list Q) : option Q :=
  match vals with [] => None | v :: rest => Some (greatest v rest) end.

Definition _create_mapper (adata : AnnData) (key : string) : exn + ColorMapper :=
  match obs adata !! key with
  | None =>
      match index_of key (var_names adata) with
      | None => inl AssertionError
      | Some ix =>
          match column_of (X adata) ix with
          | None => inl IndexError
          | Some vals =>
              let p := Viridis (n_obs adata) (positions Qeq_bool vals) in
              match np_min vals, np_max vals with
              | inr low, inr high => inr (LinearColorMapper p (Some low) (Some high))
              | inl e, _ | _, inl e => inl e
              end
          end
      end
  | Some col =>
      let p :=
        match uns adata !! (key +:+ "_colors")%string with
        | Some colors => Stored colors
        | None =>
            match col with
            | Categorical categories codes =>
                let vals := unique (observed categories codes) in
                Viridis (length vals)
                        (positions (fun v w => bool_decide (v = w)) vals)
            | Numeric vals => Viridis (n_obs adata) (positions Qeq_bool vals)
            end
        end in
      match col with
      | Categorical categories _ => inr (CategoricalColorMapper p categories)
      | Numeric vals => inr (LinearColorMapper p (series_min vals) (series_max vals))
      end
  end.

(** The values of a continuous column, whether a numeric column of
    [adata.obs] or, failing a column of that name, a variable. *)
Definition continuous_values (adata : AnnData) (key : string) : option (list Q) :=
  match obs adata !! key with
  | Some (Numeric vals) => Some vals
  | Some (Categorical _ _) => None
  | None =>
      match index_of key (var_names adata) with
      | Some ix => column_of (X adata) ix
      | None => None
      end
  end.

(** [m] is a cell of [vals] below (above) every cell. *)
Definition is_min (m : Q) (vals : list Q) : Prop :=
  In m vals /\ forall v, In v vals -> (m <= v)%Q.

Definition is_max (m : Q) (vals : list Q) : Prop :=
  In m vals /\ forall v, In v vals -> (v <= m)%Q.

End Mapper.

(** A dataset of three observations: a categorical column whose type records
    a category no row carries, a numeric column, and two variables. *)
Definition example_adata : Mapper.AnnData :=
  {| Mapper.obs :=
       {[ "louvain"%string :=
            Mapper.Categorical ["B"%string; "NK"%string; "T"%string] [Some 2; Some 0; Some 2];
          "n_counts"%string := Mapper.Numeric (map inject_Z [7; 3; 12]%Z) ]};
     Mapper.var_names := ["CD3E"%string; "MS4A1"%string];
     Mapper.X := [map inject_Z [4; 0]%Z; map inject_Z [0; 9]%Z; map inject_Z [6; 1]%Z];
     Mapper.uns := ∅;
     Mapper.n_obs := 3 |}.

(** ** The bin slider of [interactive_hist]

    A key is given by its groups; the check that every key names a column
    comes before the part embedded here. *)

Module Hist.

Inductive exn : Type := ValueError.

Record Slider : Type := MkSlider {
  start : Z;
  end_ : Z;
  value : Z;
  step : Z
}.

(** A group of observations under one key: how many observations it has, and
    how many bins [np.histogram] made of them. *)
Record group : Type := Group {
  group_n_obs : nat;
  n_hist : nat
}.

Definition non_empty (g : group) : bool := 0 <? group_n_obs g.

(** One turn of the loop over the non-empty groups: the slider takes the
    number of bins as its value, and [max_bins] is raised to it. *)
Definition visit (st : Slider * Z) (g : group) : Slider * Z :=
  let slider := MkSlider (start (fst st)) (end_ (fst st)) (Z.of_nat (n_hist g)) (step (fst st)) in
  (slider, Z.max (snd st) (value slider)).

(** One turn of the loop over the keys: the slider of the key, and
    [max_bins] as the turn leaves it. *)
Definition per_key (max_bins : Z) (groups : list group) : Slider * Z :=
  let slider := MkSlider 1 max_bins 0 1 in
  let st := fold_left visit (filter non_empty groups) (slider, max_bins) in
  (MkSlider (start (fst st)) (snd st) (value (fst st)) (step (fst st)), snd st).

Fixpoint sliders (max_bins : Z) (keys : list (list group)) : list Slider :=
  match keys with
  | [] => []
  | groups :: rest =>
      let r := per_key max_bins groups in
      fst r :: sliders (snd r) rest
  end.

(** The sliders [interactive_hist] builds, one per key, each key given by
    its groups. *)
Definition interactive_hist (max_bins : Z) (keys : list (list group)) : exn + list Slider :=
  if (max_bins <? 1)%Z then inl ValueError else inr (sliders max_bins keys).

(** The largest number of bins among the non-empty groups, and the number of
    bins of the last of them. *)
Definition largest (groups : list group) : Z :=
  fold_right (fun g acc => Z.max (Z.of_nat (n_hist g)) acc) 0%Z (filter non_empty groups).

Definition last_count (groups : list group) : Z :=
  match last (filter non_empty groups) with
  | Some g => Z.of_nat (n_hist g)
  | None => 0%Z
  end.

End Hist.


(** ** What the assemblers share: components per basis, the output path *)

Module Layout.

Inductive exn : Type :=
| IndexError
| AssertionError.




(** [s.endswith(suffix)]. *)
Fixpoint endswith (s suffix : string) : bool :=
  String.eqb s suffix ||
  match s with
  | EmptyString => false
  | String _ rest => endswith rest suffix
  end.

(** [save if str(save).endswith('.html') else str(save) + '.html']. *)
Definition html_path (save : string) : string :=
  if endswith save ".html" then save else (save +:+ ".html")%string.

(** Where the plot goes: a file, or the screen when [save] is [None]. *)
Inductive destination : Type :=
| Saved (path : string)
| Shown.

Definition deliver (save : option string) : destination :=
  match save with
  | Some path => Saved (html_path path)
  | None => Shown
  end.

End Layout.

(** ** The colour select, [_inter_color_code] and [_add_color_select] *)

Module ColorSelect.

Import JS.

Inductive exn : Type := AssertionError.

(** [Math.min] and [Math.max] of two numbers. *)
Definition min2 (a b : num) : num :=
  if isNaN a || isNaN b then NaN else if le a b then a else b.

Definition max2 (a b : num) : num :=
  if isNaN a || isNaN b then NaN else if le a b then b else a.

(** [Math.min.apply(Math, xs)] and [Math.max.apply(Math, xs)]; a missing
    column is applied as no argument at all. *)
Definition math_min (xs : option (list num)) : num :=
  match xs with
  | Some l => fold_left min2 l PInf
  | None => PInf
  end.

Definition math_max (xs : option (list num)) : num :=
  match xs with
  | Some l => fold_left max2 l NInf
  | None => NInf
  end.

(** A colour attribute of a glyph. *)
Record color_spec : Type := ColorSpec {
  field : string;
  transform : Mapper.ColorMapper
}.

Definition palette_of (m : Mapper.ColorMapper) : Mapper.palette :=
  match m with
  | Mapper.CategoricalColorMapper p _ => p
  | Mapper.LinearColorMapper p _ _ => p
  end.

(** What the script changes: the colour attributes of the glyph of each
    renderer, and the mapper of the colour bar. *)
Record state : Type := State {
  glyphs : list (gmap string color_spec);
  bar_low : num;
  bar_high : num;
  bar_palette : Mapper.palette
}.

(** The Python side: the script is generated for the given colour
    attributes, of which there must be one at least. *)
Definition _inter_color_code (colors : list string) : exn + list string :=
  match colors with
  | [] => inl AssertionError
  | _ => inr colors
  end.

(** The loop body, one assignment per colour attribute. *)
Definition paint (colors : list string) (spec : color_spec) (glyph : gmap string color_spec)
  : gmap string color_spec :=
  fold_left (fun g c => <[c := spec]> g) colors glyph.

(** The script, run when the select takes the value [chosen].  Without a
    mapper for [chosen] the first line throws and nothing changes. *)
Definition run (colors : list string) (cmaps : gmap string Mapper.ColorMapper)
           (source : gmap string (list num)) (chosen : string) (st : state) : state :=
  match cmaps !! chosen with
  | None => st
  | Some tr =>
      State (map (paint colors (ColorSpec chosen tr)) (glyphs st))
            (math_min (source !! chosen)) (math_max (source !! chosen))
            (palette_of tr)
  end.

End ColorSelect.

(** ** The regressor [_smooth_expression] sets up

    What is embedded is the choice of the regressor and of its arguments;
    the test points, the fit and the prediction are the library's. *)

Module Smooth.

Import Kernel.

Inductive exn : Type :=
| Eval (e : Kernel.exn)
| ZeroDivisionError
| TypeError
| ValueError.

(** The noise level of the Gaussian process: the [alpha] option, or the
    standard deviation of the targets. *)
Inductive alpha_arg : Type :=
| Given (v : pval)
| StdOfTargets.

(** The regressor, written as the call that builds it. *)
Inductive model : Type :=
| KernelRidge (gamma kernel : pval) (rest : gmap string pval)
| GaussianProcessRegressor (alpha : alpha_arg) (optimizer : option pval)
                           (kernel : value) (rest : gmap string pval).

(** [1 / (2 * length_scale ** 2)]. *)
Definition default_gamma (length_scale : pval) : exn + pval :=
  match length_scale with
  | PStr _ => inl TypeError
  | PNum ls =>
      if Qeq_bool (2 * (ls * ls)) 0 then inl ZeroDivisionError
      else inr (PNum (1 / (2 * (ls * ls))))
  end.

Definition get_or (d : pval) (m : gmap string pval) (k : string) : pval :=
  match m !! k with Some v => v | None => d end.

Section Regressor.

Variable ctor_raises : kernel_class -> gmap string pval -> option Kernel.exn.
Variable op_raises : operation -> value -> value -> option Kernel.exn.
Variable default : bool.
Variable parse : string -> Kernel.exn + node.

Definition _smooth_expression (mode : string) (kernel_expr : option string)
           (opt_params : gmap string pval) (s : store) : exn + model :=
  if String.eqb mode "krr" then
    let gamma :=
      match opt_params !! "gamma"%string with
      | Some g => inr g
      | None => default_gamma (get_or (PNum (2 # 10)) (kernel_default_params s) "length_scale")
      end in
    match gamma with
    | inl e => inl e
    | inr g =>
        inr (KernelRidge g (get_or (PStr "rbf") opt_params "kernel")
                         (delete "kernel"%string (delete "gamma"%string opt_params)))
    end
  else if String.eqb mode "gp" then
    match gp_kernel ctor_raises op_raises default parse kernel_expr s with
    | inl e => inl (Eval e)
    | inr (kernel, _) =>
        inr (GaussianProcessRegressor
               (match opt_params !! "alpha"%string with
                | Some a => Given a
                | None => StdOfTargets
                end)
               (opt_params !! "optimizer"%string)
               kernel
               (delete "kernel"%string
                  (delete "optimizer"%string (delete "alpha"%string opt_params))))
    end
  else inl ValueError.

End Regressor.

End Smooth.

(** The type entry of the default parameter set, if any, names a kernel. *)
Definition default_type_known (s : Kernel.store) : Prop :=
  forall t, Kernel.kernel_default_params s !! "type"%string = Some t ->
            is_Some (Kernel.kernels t).

(** ** The mappers of [_get_mappers]

    What is embedded is the dictionary of mappers, one for every numeric
    column of [adata.obs] and every requested gene; the columns copied into
    the data frame are left to the data-frame library.  [columns] stands for
    [adata.obs.columns], whose order the map of columns does not keep; the
    dictionary is a map, the field of an entry being its key. *)

Module GetMappers.

Import Mapper.

Inductive exn : Type :=
| KeyError
| MapperError (e : Mapper.exn).

(** [sorted], on strings. *)
Fixpoint insert_sorted (s : string) (l : list string) : list string :=
  match l with
  | [] => [s]
  | t :: rest => if String.leb s t then s :: l else t :: insert_sorted s rest
  end.

Definition sorted (l : list string) : list string := fold_right insert_sorted [] l.

(** The columns that are not categorical; the filter is run to its end
    before the first mapper is made. *)
Fixpoint not_category (adata : AnnData) (columns : list string) : exn + list string :=
  match columns with
  | [] => inr []
  | c :: rest =>
      match obs adata !! c with
      | None => inl KeyError
      | Some col =>
          match not_category adata rest with
          | inl e => inl e
          | inr cs =>
              inr (match col with
                   | Numeric _ => c :: cs
                   | Categorical _ _ => cs
                   end)
          end
      end
  end.

(** The dictionary comprehension: the mapper of each key in turn, the first
    failure ending it. *)
Fixpoint comprehension (adata : AnnData) (keys : list string) : exn + gmap string ColorMapper :=
  match keys with
  | [] => inr ∅
  | c :: rest =>
      match _create_mapper adata c with
      | inl e => inl (MapperError e)
      | inr m =>
          match comprehension adata rest with
          | inl e => inl e
          | inr ms => inr (<[c := m]> ms)
          end
      end
  end.

Definition _get_mappers (adata : AnnData) (columns genes : list string) (sort : bool)
  : exn + gmap string ColorMapper :=
  let genes := if sort then sorted genes else genes in
  match not_category adata columns with
  | inl e => inl e
  | inr cs => comprehension adata ((if sort then sorted cs else cs) ++ genes)
  end.

(** Every row of [X] has a cell for every variable, and there is a row. *)
Definition rectangular (adata : AnnData) : Prop :=
  X adata <> [] /\ Forall (fun row => length row = length (var_names adata)) (X adata).

End GetMappers.

(** ** The checks [gene_trend] makes before it plots

    The paths are checked against the categories of [path_key], the
    pseudotime column is looked for, the genes that are not variables are
    dropped, and the mapper of [color_key] is made.  The genes are given;
    the choice of velocity genes, when none are, is an indexing of the
    dataset and is not embedded. *)

Module GeneTrend.

Import Mapper.

Inductive exn : Type :=
| AssertionError
| ValueError
| KeyError
| AttributeError
| MapperError (e : Mapper.exn).

(** [assert p in adata.obs[path_key].cat.categories]. *)
Definition check_member (adata : AnnData) (path_key p : string) : exn + unit :=
  match obs adata !! path_key with
  | None => inl KeyError
  | Some (Numeric _) => inl AttributeError
  | Some (Categorical categories _) =>
      if bool_decide (p ∈ categories) then inr tt else inl AssertionError
  end.

Fixpoint check_path (adata : AnnData) (path_key : string) (path : list string) : exn + unit :=
  match path with
  | [] => inr tt
  | p :: rest =>
      match check_member adata path_key p with
      | inl e => inl e
      | inr _ => check_path adata path_key rest
      end
  end.

Fixpoint check_paths (adata : AnnData) (path_key : string) (paths : list (list string))
  : exn + unit :=
  match paths with
  | [] => inr tt
  | path :: rest =>
      match check_path adata path_key path with
      | inl e => inl e
      | inr _ => check_paths adata path_key rest
      end
  end.

(** [np.in1d(genes, adata.var_names)]. *)
Definition genes_indicator (adata : AnnData) (genes : list string) : list bool :=
  map (fun g => bool_decide (g ∈ var_names adata)) genes.

(** [np.array(genes)[genes_indicator]]. *)
Fixpoint mask {A : Type} (l : list A) (keep : list bool) : list A :=
  match l, keep with
  | x :: l', b :: keep' => if b then x :: mask l' keep' else mask l' keep'
  | _, _ => []
  end.

Definition gene_trend (adata : AnnData) (paths : list (list string))
           (genes : list string) (path_key color_key : string)
  : exn + (list string * ColorMapper) :=
  match check_paths adata path_key paths with
  | inl e => inl e
  | inr _ =>
      match obs adata !! "dpt_pseudotime"%string with
      | None => inl ValueError
      | Some _ =>
          let genes :=
            if forallb (fun b => b) (genes_indicator adata genes) then genes
            else mask genes (genes_indicator adata genes) in
          match _create_mapper adata color_key with
          | inl e => inl (MapperError e)
          | inr mapper => inr (genes, mapper)
          end
      end
  end.

End GeneTrend.
(** ** Facts about the numbers *)

Section NumFacts.

Import JS.









End NumFacts.

(** ** Facts about the sort *)

Section SortFacts.

Import Rebin.

Lemma insert_asc_perm (a : Q) (l : list Q) : Permutation (insert_asc a l) (a :: l).
Proof.
  induction l as [|b t IH]; simpl; [reflexivity|].
  destruct (Qle_bool a b); [reflexivity|].
  rewrite IH. apply perm_swap.
Qed.

Lemma sort_asc_perm (l : list Q) : Permutation (sort_asc l) l.
Proof.
  induction l as [|a t IH]; simpl; [reflexivity|].
  rewrite insert_asc_perm. now constructor.
Qed.

Lemma sort_asc_length (l : list Q) : length (sort_asc l) = length l.
Proof. apply Permutation_length, sort_asc_perm. Qed.

Lemma insert_asc_sorted (a : Q) (l : list Q) :
  StronglySorted Qle l -> StronglySorted Qle (insert_asc a l).
Proof.
  induction 1 as [|b t Hs IH Hb]; simpl.
  - repeat constructor.
  - destruct (Qle_bool a b) eqn:E.
    + apply Qle_bool_iff in E. constructor; [now constructor|].
      constructor; [exact E|].
      eapply Forall_impl; [exact Hb|]. intros c Hc. simpl in Hc.
      eapply Qle_trans; eassumption.
    + assert (b <= a)%Q.
      { destruct (Qlt_le_dec b a) as [L|L]; [now apply Qlt_le_weak|].
        apply Qle_bool_iff in L. congruence. }
      constructor; [exact IH|].
      rewrite (insert_asc_perm a t). now constructor.
Qed.

Lemma sort_asc_sorted (l : list Q) : StronglySorted Qle (sort_asc l).
Proof.
  induction l as [|a t IH]; simpl; [constructor|].
  now apply insert_asc_sorted.
Qed.



End SortFacts.

(** ** Facts about the rebinning loop *)

Section RebinFacts.

Import JS Rebin.

(** What the inner loop returns: the lowest index that passes the test. *)
Lemma first_bin_from_spec (edges : list num) (v : num) (j k : nat) :
  first_bin_from j v edges = Some k ->
  j <= k /\ k - j < length edges /\
  le v (getn edges (k - j)) = true /\
  forall m, m < k - j -> le v (getn edges m) = false.
Proof.
  revert j. induction edges as [|e rest IH]; intros j; simpl; [discriminate|].
  destruct (le v e) eqn:E.
  - intros [= <-]. rewrite Nat.sub_diag. simpl.
    repeat split; [lia | lia | exact E | intros m Hm; lia].
  - intros H. apply IH in H as (Hj & Hlen & Hle & Hmin).
    replace (k - j) with (S (k - S j)) by lia. simpl.
    repeat split; [lia | lia | exact Hle |].
    intros [|m] Hm; [exact E|]. apply Hmin. lia.
Qed.

Lemma first_bin_spec (edges : list num) (v : num) (k : nat) :
  first_bin v edges = Some k ->
  k < length edges /\ le v (getn edges k) = true /\
  forall m, m < k -> le v (getn edges m) = false.
Proof.
  intros H. apply first_bin_from_spec in H.
  rewrite Nat.sub_0_r in H. tauto.
Qed.

Lemma first_bin_from_intro (edges : list num) (v : num) (j m : nat) :
  m < length edges -> le v (getn edges m) = true ->
  (forall m', m' < m -> le v (getn edges m') = false) ->
  first_bin_from j v edges = Some (j + m).
Proof.
  revert j m. induction edges as [|e rest IH]; intros j m Hm Hle Hmin; simpl in *; [lia|].
  destruct m as [|m].
  - unfold getn in Hle. simpl in Hle. rewrite Hle. f_equal. lia.
  - assert (H0 : le v e = false) by (apply (Hmin 0); lia).
    rewrite H0.
    rewrite (IH (S j) m); [f_equal; lia | lia | exact Hle |].
    intros m' Hm'. apply (Hmin (S m')). lia.
Qed.

Lemma first_bin_iff (edges : list num) (v : num) (k : nat) :
  first_bin v edges = Some k <->
  k < length edges /\ le v (getn edges k) = true /\
  forall m, m < k -> le v (getn edges m) = false.
Proof.
  split; [apply first_bin_spec|].
  intros (Hk & Hle & Hmin). apply (first_bin_from_intro edges v 0 k); assumption.
Qed.



Lemma place_ok (x : list Q) (edges : list num) (t : tally) (i : nat) :
  tally_ok (length edges) t -> tally_ok (length edges) (place x edges t i).
Proof.
  intros [Hl Hc]. unfold place.
  destruct (first_bin (get x i) edges) as [j|] eqn:E; [|now split].
  split; simpl; [now rewrite length_alter|].
  rewrite Hc. clear. revert j.
  induction (members t) as [|m ms IH]; intros [|j]; simpl; try reflexivity.
  - rewrite length_app. simpl. f_equal. lia.
  - f_equal. apply IH.
Qed.


Lemma fold_place_ok (x : list Q) (edges : list num) (ps : list nat) (t : tally) :
  tally_ok (length edges) t ->
  tally_ok (length edges) (fold_left (place x edges) ps t).
Proof.
  revert t. induction ps as [|i ps IH]; intros t Ht; simpl; [exact Ht|].
  apply IH, place_ok, Ht.
Qed.


Lemma init_tally_ok (n : nat) : tally_ok n (Tally (replicate n 0) (replicate n [])).
Proof.
  split; simpl; [apply length_replicate|].
  induction n; simpl; congruence.
Qed.

Lemma r_edges_length (x : list Q) (n : nat) : length (r_edges_of x n) = n.
Proof. unfold r_edges_of. now rewrite length_map, length_seq. Qed.

Lemma l_edges_length (x : list Q) (n : nat) : length (l_edges_of x n) = n.
Proof. unfold l_edges_of. now rewrite length_map, length_seq. Qed.








Lemma getn_widths (l r : list num) (i : nat) :
  i < length r -> getn (widths l r) i = sub (getn r i) (getn l i).
Proof.
  intros Hi. unfold getn at 1, widths.
  destruct (lookup_lt_is_Some_2 r i Hi) as [c Hc].
  rewrite (nth_lookup_Some _ _ _ (sub c (getn l i))).
  - unfold getn. now rewrite (nth_lookup_Some r i NaN c Hc).
  - now rewrite list_lookup_imap, Hc.
Qed.






(** Which positions a bin holds after one more turn of the outer loop. *)
Lemma place_members (x : list Q) (edges : list num) (t : tally) (i j k : nat) :
  length (members t) = length edges ->
  In k (nth j (members (place x edges t i)) []) <->
  In k (nth j (members t) []) \/ (k = i /\ first_bin (get x i) edges = Some j).
Proof.
  intros Hlen. unfold place.
  destruct (first_bin (get x i) edges) as [j0|] eqn:E; simpl members.
  - apply first_bin_spec in E as (Hj0 & _).
    rewrite !nth_lookup, list_lookup_alter.
    destruct (decide (j0 = j)) as [->|Hne].
    + destruct (lookup_lt_is_Some_2 (members t) j) as [m Hm]; [lia|].
      rewrite Hm. simpl. rewrite in_app_iff. simpl.
      split; [intros [H|[H|[]]]; [now left | right; now subst] |
              intros [H|[H _]]; [now left | right; left; now subst]].
    + split; [now left | intros [H|[_ H]]; [exact H | congruence]].
  - split; [now left | intros [H|[_ H]]; [exact H | discriminate]].
Qed.

Lemma fold_place_members (x : list Q) (edges : list num) (ps : list nat)
      (t : tally) (j k : nat) :
  length (members t) = length edges ->
  In k (nth j (members (fold_left (place x edges) ps t)) []) <->
  In k (nth j (members t) []) \/ (In k ps /\ first_bin (get x k) edges = Some j).
Proof.
  revert t. induction ps as [|i ps IH]; intros t Hlen; simpl fold_left.
  - simpl. tauto.
  - rewrite IH.
    + rewrite place_members by exact Hlen. simpl.
      split; [intros [[H|[-> H]]|[H1 H2]] | intros [H|[[->|H1] H2]]]; auto.
    + unfold place. destruct (first_bin (get x i) edges); [|exact Hlen].
      simpl. now rewrite length_alter.
Qed.

(** The index list of bin [j] holds exactly the positions, in the sorted
    array, of the samples whose first passing right edge is edge [j]. *)
Lemma indices_spec (samples : list Q) (n i j : nat) :
  In i (nth j (indices (_inter_hist_js_code samples n)) []) <->
  i < length samples /\
  first_bin (get (sort_asc samples) i) (r_edges (_inter_hist_js_code samples n)) = Some j.
Proof.
  unfold _inter_hist_js_code, fill. simpl.
  rewrite fold_place_members
    by (simpl; now rewrite length_replicate, r_edges_length).
  simpl. rewrite in_seq, sort_asc_length.
  assert (Hnil : nth j (replicate n (@nil nat)) [] = []).
  { clear. revert j. induction n; intros [|j]; simpl; auto. }
  rewrite Hnil. simpl. split; [intros [[]|[H1 H2]] | intros [H1 H2]; right];
    (split; [lia | exact H2]).
Qed.

End RebinFacts.

(** ** Facts about the threshold script *)

Section ThresholdFacts.

Import JS Threshold.



(** The chain of branches labels the bin with the winner of the rule. *)
Lemma branch_test_contains (c : category) (l r : num) :
  branch_test c l r = contains c (trimmed l r).
Proof. reflexivity. Qed.


















End ThresholdFacts.

(** ** Facts about the scripts of the linked plot *)

Section LinkFacts.

Import JS Link.

Variable f : frame.

Lemma slide_keeps_root (st : state) (v : num) :
  col_value (step f st (Slide v)) = col_value st.
Proof. simpl. unfold slider_callback. now destruct (column f (col_value st)). Qed.

Lemma slides_keep_root (vs : list num) (st : state) :
  col_value (run f (map Slide vs) st) = col_value st.
Proof.
  revert st. induction vs as [|v vs IH]; intros st; [reflexivity|].
  change (run f (map Slide (v :: vs)) st)
    with (run f (map Slide vs) (step f st (Slide v))).
  rewrite IH. apply slide_keeps_root.
Qed.

Lemma column_row (j : nat) :
  j < length (dmat f) -> column f j = Some (map (fun row => getn row j) (dmat f)).
Proof. intros Hj. unfold column. apply Nat.ltb_lt in Hj. now rewrite Hj. Qed.

Lemma hover_sets_root (st : state) (j : nat) (rest : list nat) :
  j < length (dmat f) -> col_value (step f st (Hover (j :: rest))) = j.
Proof. intros Hj. simpl. now rewrite column_row. Qed.

Lemma run_app (es es' : list event) (st : state) :
  run f (es ++ es') st = run f es' (run f es st).
Proof. unfold run. apply fold_left_app. Qed.

End LinkFacts.

(** ** Facts about the kernel-expression evaluator *)

Section KernelFacts.

Import Kernel.

Variable ctor_raises : kernel_class -> gmap string pval -> option exn.
Variable op_raises : operation -> value -> value -> option exn.

Lemma same_names_refl (s : store) : same_names s s.
Proof. intros id. reflexivity. Qed.

Lemma same_names_trans (s1 s2 s3 : store) :
  same_names s1 s2 -> same_names s2 s3 -> same_names s1 s3.
Proof. intros H12 H23 id. specialize (H12 id). specialize (H23 id). tauto. Qed.

Lemma pop_type_names (dflt : bool) (id : string) (s s' : store) x :
  pop_type id s = inr (x, s') -> same_names s s'.
Proof.
  unfold pop_type. destruct (kernel_params s !! id) as [params|] eqn:E.
  - intros [= _ <-] id'. simpl.
    destruct (decide (id = id')) as [<-|Hne].
    + rewrite lookup_insert_eq, E. split; discriminate.
    + now rewrite lookup_insert_ne.
  - intros [= _ <-] id'. reflexivity.
Qed.

Lemma build_store (t : pval) (kw : gmap string pval) (s s' : store) (v : value) :
  build ctor_raises t kw s = inr (v, s') -> s' = s.
Proof.
  unfold build. destruct (kernels t); [|discriminate].
  destruct (ctor_raises _ _); [discriminate|]. now intros [= _ <-].
Qed.

Lemma call_store (f : operation) (a b : value) (s s' : store) (v : value) :
  call op_raises f a b s = inr (v, s') -> s' = s.
Proof.
  unfold call. destruct (op_raises f a b); [discriminate|]. now intros [= _ <-].
Qed.

Lemma eval_names (dflt : bool) (n : node) :
  forall (s s' : store) (v : value),
    _eval ctor_raises op_raises dflt n s = inr (v, s') -> same_names s s'.
Proof.
  induction n as [x|id|lhs IHl op rhs IHr|op operand IH|]; intros s s' v; simpl.
  - intros [= _ <-]. apply same_names_refl.
  - unfold bind, declared.
    destruct (negb dflt && negb (bool_decide (is_Some (kernel_params s !! id))));
      [discriminate|].
    destruct (pop_type id s) as [e|[tp s1]] eqn:Ep; [discriminate|].
    intros Hb. apply build_store in Hb. subst s'.
    eapply (pop_type_names dflt); exact Ep.
  - destruct (operators op); [|discriminate]. unfold bind.
    destruct (_eval _ _ dflt lhs s) as [e|[a s1]] eqn:El; [discriminate|].
    destruct (_eval _ _ dflt rhs s1) as [e|[b s2]] eqn:Er; [discriminate|].
    intros Hc. apply call_store in Hc. subst s'.
    eapply same_names_trans; [eapply IHl | eapply IHr]; eassumption.
  - destruct (operators op); [|discriminate]. unfold bind.
    destruct (_eval _ _ dflt operand s) as [e|[a s1]]; discriminate.
  - discriminate.
Qed.

(** With defaulting disabled, an expression that references an undeclared
    name never evaluates to a value. *)
Lemma eval_undeclared_fails (id : string) (n : node) :
  forall s : store,
    references id n -> kernel_params s !! id = None ->
    exists e, _eval ctor_raises op_raises false n s = inl e.
Proof.
  induction n as [x|id'|lhs IHl op rhs IHr|op operand IH|]; intros s Href Hnone; simpl in *.
  - destruct Href.
  - subst id'. unfold bind, declared. rewrite Hnone.
    exists ValueError. reflexivity.
  - destruct (operators op); [|eauto]. unfold bind.
    destruct (_eval _ _ false lhs s) as [e|[a s1]] eqn:El; [eauto|].
    destruct Href as [Hl|Hr].
    + destruct (IHl s Hl Hnone) as [e He]. congruence.
    + assert (Hnone1 : kernel_params s1 !! id = None).
      { apply (eval_names false lhs s s1 a El). exact Hnone. }
      destruct (IHr s1 Hr Hnone1) as [e He]. rewrite He. eauto.
  - destruct (operators op); [|eauto]. unfold bind.
    destruct (_eval _ _ false operand s) as [e|[a s1]]; eauto.
  - eauto.
Qed.

End KernelFacts.

Section KernelGrammarFacts.

Import Kernel.

Lemma kernels_popped (params : gmap string pval) :
  (forall t, params !! "type"%string = Some t -> is_Some (kernels t)) ->
  is_Some (kernels (popped params)).
Proof.
  intros H. unfold popped. destruct (params !! "type"%string) as [t|].
  - now apply H.
  - simpl. eauto.
Qed.

(** On a tree of the grammar, with parameter sets of known types and a
    library that does not raise, the only exception is the [ValueError] of
    an undeclared name. *)
Lemma eval_grammar (n : node) :
  forall s : store,
    in_grammar n -> types_known s ->
    (exists v s', _eval ctor_total op_total false n s = inr (v, s') /\ types_known s') \/
    _eval ctor_total op_total false n s = inl ValueError.
Proof.
  induction n as [x|id|lhs IHl op rhs IHr|op operand IH|]; intros s Hg Hk; simpl in *.
  - left. eauto.
  - unfold bind, declared, pop_type.
    destruct (kernel_params s !! id) as [params|] eqn:E.
    + left. rewrite bool_decide_eq_true_2 by eauto. simpl.
      unfold build. simpl.
      destruct (kernels_popped params) as [cls Hcls]; [intros t; apply (Hk id params t E)|].
      rewrite E. simpl. rewrite Hcls. simpl. do 2 eexists. split; [reflexivity|].
      intros id' params' t. simpl.
      destruct (decide (id = id')) as [<-|Hne].
      * rewrite lookup_insert_eq. intros [= <-]. now rewrite lookup_delete_eq.
      * rewrite lookup_insert_ne by exact Hne. apply Hk.
    + right. rewrite bool_decide_eq_false_2; [reflexivity|].
      intros [? ?]. discriminate.
  - destruct Hg as ([f Hf] & Hgl & Hgr). rewrite Hf. unfold bind.
    destruct (IHl s Hgl Hk) as [(a & s1 & -> & Hk1) | ->]; [|now right].
    destruct (IHr s1 Hgr Hk1) as [(b & s2 & -> & Hk2) | ->]; [|now right].
    left. unfold call. simpl. eauto.
  - destruct Hg.
  - destruct Hg.
Qed.

Lemma eval_grammar_undeclared (id : string) (n : node) (s : store) :
  in_grammar n -> types_known s ->
  references id n -> kernel_params s !! id = None ->
  _eval ctor_total op_total false n s = inl ValueError.
Proof.
  intros Hg Hk Href Hnone.
  destruct (eval_undeclared_fails ctor_total op_total id n s Href Hnone) as [e He].
  destruct (eval_grammar n s Hg Hk) as [(v & s' & Hv & _)|Hv]; congruence.
Qed.

End KernelGrammarFacts.

(** ** Facts about the colour-mapper resolver *)

Section MapperFacts.

Import Mapper.

Lemma least_fold (rest : list Q) :
  forall m : Q,
    In (least m rest) (m :: rest) /\ (least m rest <= m)%Q /\
    forall v, In v rest -> (least m rest <= v)%Q.
Proof.
  unfold least. induction rest as [|w rest IH]; intros m; simpl.
  - split; [now left|]. split; [apply Qle_refl | intros v []].
  - destruct (Qle_bool m w) eqn:E.
    + apply Qle_bool_iff in E. destruct (IH m) as (Hin & Hle & Hall).
      split; [destruct Hin as [H|H]; [now left | right; now right]|].
      split; [exact Hle|].
      intros v [<-|Hv]; [eapply Qle_trans; eassumption | now apply Hall].
    + assert (Hwm : (w <= m)%Q).
      { destruct (Qlt_le_dec w m) as [L|L]; [now apply Qlt_le_weak|].
        apply Qle_bool_iff in L. congruence. }
      destruct (IH w) as (Hin & Hle & Hall).
      split; [right; exact Hin|].
      split; [eapply Qle_trans; eassumption|].
      intros v [<-|Hv]; [exact Hle | now apply Hall].
Qed.

Lemma greatest_fold (rest : list Q) :
  forall m : Q,
    In (greatest m rest) (m :: rest) /\ (m <= greatest m rest)%Q /\
    forall v, In v rest -> (v <= greatest m rest)%Q.
Proof.
  unfold greatest. induction rest as [|w rest IH]; intros m; simpl.
  - split; [now left|]. split; [apply Qle_refl | intros v []].
  - destruct (Qle_bool w m) eqn:E.
    + apply Qle_bool_iff in E. destruct (IH m) as (Hin & Hle & Hall).
      split; [destruct Hin as [H|H]; [now left | right; now right]|].
      split; [exact Hle|].
      intros v [<-|Hv]; [eapply Qle_trans; eassumption | now apply Hall].
    + assert (Hmw : (m <= w)%Q).
      { destruct (Qlt_le_dec m w) as [L|L]; [now apply Qlt_le_weak|].
        apply Qle_bool_iff in L. congruence. }
      destruct (IH w) as (Hin & Hle & Hall).
      split; [right; exact Hin|].
      split; [eapply Qle_trans; eassumption|].
      intros v [<-|Hv]; [exact Hle | now apply Hall].
Qed.

Lemma least_is_min (v : Q) (rest : list Q) : is_min (least v rest) (v :: rest).
Proof.
  destruct (least_fold rest v) as (Hin & Hle & Hall).
  split; [exact Hin|]. intros w [<-|Hw]; [exact Hle | now apply Hall].
Qed.

Lemma greatest_is_max (v : Q) (rest : list Q) : is_max (greatest v rest) (v :: rest).
Proof.
  destruct (greatest_fold rest v) as (Hin & Hle & Hall).
  split; [exact Hin|]. intros w [<-|Hw]; [exact Hle | now apply Hall].
Qed.

Lemma index_of_absent (key : string) (names : list string) :
  ~ In key names -> index_of key names = None.
Proof.
  induction names as [|n rest IH]; intros Hn; simpl; [reflexivity|].
  destruct (String.eqb n key) eqn:E.
  - apply String.eqb_eq in E. exfalso. apply Hn. now left.
  - rewrite IH; [reflexivity|]. intros H. apply Hn. now right.
Qed.

Lemma index_of_present (key : string) (names : list string) (ix : nat) :
  index_of key names = Some ix -> nth_error names ix = Some key.
Proof.
  revert ix. induction names as [|n rest IH]; intros ix; simpl; [discriminate|].
  destruct (String.eqb n key) eqn:E.
  - apply String.eqb_eq in E. intros [= <-]. simpl. now subst.
  - destruct (index_of key rest) as [k|]; [|discriminate].
    intros [= <-]. simpl. now apply IH.
Qed.

Lemma observed_in_categories (categories : list string) (codes : list (option nat)) (v : string) :
  In (Some v) (observed categories codes) -> In v categories.
Proof.
  unfold observed. rewrite in_map_iff. intros ([k|] & Hk & _); [|discriminate].
  eapply nth_error_In; exact Hk.
Qed.

End MapperFacts.

(** ** Facts about the bin slider *)

Section HistFacts.

Import Hist.

Local Open Scope Z_scope.

Lemma visit_fold (gs : list group) :
  forall (s : Slider) (m : Z),
    0 <= m ->
    snd (fold_left visit gs (s, m)) =
      Z.max m (fold_right (fun g acc => Z.max (Z.of_nat (n_hist g)) acc) 0 gs) /\
    start (fst (fold_left visit gs (s, m))) = start s /\
    step (fst (fold_left visit gs (s, m))) = step s /\
    value (fst (fold_left visit gs (s, m))) =
      match last gs with
      | Some g => Z.of_nat (n_hist g)
      | None => value s
      end.
Proof.
  induction gs as [|g gs IH]; intros s m Hpos.
  - simpl. repeat split. lia.
  - change (fold_left visit (g :: gs) (s, m))
      with (fold_left visit gs
              (MkSlider (start s) (end_ s) (Z.of_nat (n_hist g)) (step s),
               Z.max m (Z.of_nat (n_hist g)))).
    destruct (IH (MkSlider (start s) (end_ s) (Z.of_nat (n_hist g)) (step s))
                 (Z.max m (Z.of_nat (n_hist g)))) as (Hm & Hs & Hst & Hv); [lia|].
    rewrite Hm, Hs, Hst, Hv. cbn [fold_right start step value].
    repeat split; [lia|].
    destruct gs as [|g' gs']; [reflexivity|].
    change (last (g :: g' :: gs')) with (last (g' :: gs')).
    destruct (last (g' :: gs')) eqn:E; [reflexivity|].
    apply last_None in E. discriminate.
Qed.

Lemma per_key_spec (max_bins : Z) (groups : list group) :
  0 <= max_bins ->
  snd (per_key max_bins groups) = Z.max max_bins (largest groups) /\
  end_ (fst (per_key max_bins groups)) = Z.max max_bins (largest groups) /\
  value (fst (per_key max_bins groups)) = last_count groups /\
  start (fst (per_key max_bins groups)) = 1 /\
  step (fst (per_key max_bins groups)) = 1.
Proof.
  intros Hpos. unfold per_key, largest, last_count.
  destruct (visit_fold (filter non_empty groups) (MkSlider 1 max_bins 0 1) max_bins Hpos)
    as (Hm & Hs & Hst & Hv).
  cbn [fst snd end_ start step value]. rewrite Hm, Hs, Hst, Hv. repeat split.
Qed.

Lemma largest_nonneg (groups : list group) : 0 <= largest groups.
Proof.
  unfold largest. induction (filter non_empty groups); simpl; lia.
Qed.

Lemma largest_app (gs1 gs2 : list group) :
  largest (gs1 ++ gs2) = Z.max (largest gs1) (largest gs2).
Proof.
  unfold largest. rewrite filter_app.
  induction (filter non_empty gs1) as [|g l IH]; simpl.
  - pose proof (largest_nonneg gs2) as H. unfold largest in H. lia.
  - rewrite IH. lia.
Qed.

(** The slider of the key at position [k]: its end is the largest number of
    bins met so far, over this key and the keys before it. *)
Lemma sliders_spec (keys : list (list group)) :
  forall (max_bins : Z) (k : nat) (groups : list group),
    0 <= max_bins ->
    keys !! k = Some groups ->
    exists s, sliders max_bins keys !! k = Some s /\
              end_ s = Z.max max_bins (largest (concat (take (S k) keys))) /\
              value s = last_count groups /\ start s = 1 /\ step s = 1.
Proof.
  induction keys as [|gs rest IH]; intros max_bins k groups Hpos Hk; [discriminate|].
  destruct (per_key_spec max_bins gs Hpos) as (Hm & He & Hv & Hs & Hst).
  destruct k as [|k]; simpl in Hk.
  - injection Hk as <-. exists (fst (per_key max_bins gs)).
    split; [reflexivity|]. simpl. rewrite app_nil_r. repeat split; assumption.
  - destruct (IH (snd (per_key max_bins gs)) k groups) as (s & Hl & He' & Hv' & Hs' & Hst');
      [rewrite Hm; lia | exact Hk |].
    exists s. split; [exact Hl|].
    repeat split; try assumption.
    rewrite He', Hm.
    change (concat (take (S (S k)) (gs :: rest))) with (gs ++ concat (take (S k) rest)).
    rewrite largest_app. lia.
Qed.

Lemma sliders_length (keys : list (list group)) (max_bins : Z) :
  length (sliders max_bins keys) = length keys.
Proof.
  revert max_bins. induction keys as [|gs rest IH]; intros m; simpl; [reflexivity|].
  now rewrite IH.
Qed.

End HistFacts.

(** * The claims *)

Section RebinClaims.

Import JS Rebin.




(** C2.  A position of the sorted array is in the index list of bin [j]
    exactly when edge [j] is the first right edge, scanning from bin 0,
    that is at least the sample; and on [1,2,2,3,4,10] with three bins the
    script yields bin size 3, left edges 1,4,7, right edges 4,7,10, the
    samples 1,2,2,3,4 in bin 0, nothing in bin 1 and 10 in bin 2. *)
Theorem rebin_first_right_edge :
  (forall (samples : list Q) (n_bins i j : nat),
      let o := _inter_hist_js_code samples n_bins in
      In i (nth j (indices o) []) <->
      i < length samples /\ j < n_bins /\
      le (get (values o) i) (getn (r_edges o) j) = true /\
      forall m, m < j -> le (get (values o) i) (getn (r_edges o) m) = false) /\
  (let o := _inter_hist_js_code example_samples 3 in
   JS.norm (bin_size (values o) 3) = Fin 3 /\
   map JS.norm (l_edges o) = fins [1; 4; 7]%Z /\
   map JS.norm (r_edges o) = fins [4; 7; 10]%Z /\
   indices o = [[0; 1; 2; 3; 4]; []; [5]] /\
   map (map (get (values o))) (indices o) = [fins [1; 2; 2; 3; 4]%Z; []; fins [10]%Z] /\
   le (Fin 4) (getn (r_edges o) 0) = true).
Proof.
  split.
  - intros samples n i j o. unfold o. rewrite indices_spec, first_bin_iff.
    simpl. rewrite r_edges_length. tauto.
  - vm_compute. repeat split; reflexivity.
Qed.

End RebinClaims.

Section ThresholdClaims.

Import JS Threshold.






End ThresholdClaims.

Section LinkClaims.

Import JS Link.

(** C4.  Before any event the root ([col.data['value']]) is row 0; a move of
    the cutoff slider keeps the root and recomputes the highlight values from
    the column of that root and the new cutoff; hovering a row [j] makes [j]
    the root whatever the root was; hence after any events, a hover on row
    [j] followed by any number of slider moves leaves [j] as the root, and
    slider moves alone leave row 0. *)
Theorem link_slider_keeps_hovered_root
        (f : frame) (high slider : num) (j : nat) (rest : list nat)
        (es : list event) (vs : list num) (v : num) :
  j < length (dmat f) ->
  col_value (link_plot f high slider) = 0 /\
  col_value (run f (map Slide vs) (link_plot f high slider)) = 0 /\
  (forall st : state,
      col_value (step f st (Slide v)) = col_value st /\
      forall xs, column f (col_value st) = Some xs ->
                 hl_color (step f st (Slide v)) = Some (update_color_code f (col_value st) v xs)) /\
  (forall st : state,
      col_value (step f st (Hover (j :: rest))) = j /\
      col_value (step f st (Hover [])) = col_value st) /\
  let st := run f (es ++ Hover (j :: rest) :: map Slide vs) (link_plot f high slider) in
  col_value st = j /\
  (forall xs, column f j = Some xs ->
     hl_color (step f st (Slide v)) = Some (update_color_code f j v xs)).
Proof.
  intros Hj. split; [reflexivity|]. split; [apply slides_keep_root|].
  split; [|split].
  - intros st. split; [apply slide_keeps_root|].
    intros xs Hxs. simpl. unfold slider_callback. now rewrite Hxs.
  - intros st. split; [now apply hover_sets_root | reflexivity].
  - assert (Hroot : col_value (run f (es ++ Hover (j :: rest) :: map Slide vs)
                                   (link_plot f high slider)) = j).
    { rewrite run_app. change (Hover (j :: rest) :: map Slide vs)
        with ([Hover (j :: rest)] ++ map Slide vs).
      rewrite run_app, slides_keep_root.
      exact (hover_sets_root f (run f es (link_plot f high slider)) j rest Hj). }
    split; [exact Hroot|].
    intros xs Hxs. simpl. unfold slider_callback. rewrite Hroot, Hxs. reflexivity.
Qed.

Lemma link_slider_keeps_hovered_root_witness :
  2 < length (dmat example_frame) /\
  let st := run example_frame
                [Hover [1]; Slide (Fin 2); Hover [2; 0]; Slide (Fin 4); Slide (Fin 1)]
                (link_plot example_frame (Fin 5) (Fin 2)) in
  col_value st = 2.
Proof.
  split; [simpl; lia|].
  destruct (link_slider_keeps_hovered_root example_frame (Fin 5) (Fin 2) 2 [0]
              [Hover [1]; Slide (Fin 2)] [Fin 4; Fin 1] (Fin 3)) as (_ & _ & _ & _ & H & _).
  - simpl. lia.
  - exact H.
Defined.

End LinkClaims.

Section KernelClaims.

Import Kernel.

(** C5, as the code has it.  Given that the parser reads ["(a + b) ** 2"] as
    the tree [(a + b) ** 2], the evaluator, on parameter sets for a constant
    kernel [a] and a dot-product kernel [b], builds
    [(Constant + Linear) ** 2].  With defaulting disabled, an expression that
    references a name without a parameter set never builds a kernel,
    whatever the library does: the evaluation raises.  The exception is the
    [ValueError] of the undeclared name when the expression is made of
    numbers and names under [+], [*] and [**], the declared parameter sets
    name kernels of the table, and the library calls succeed. *)
Theorem kernel_expression_eval (parse : string -> exn + node) :
  parse example_text = inr example_tree ->
  (exists s', gp_kernel ctor_total op_total false parse (Some example_text) example_store
              = inr (example_kernel, s')) /\
  (forall ctor_raises op_raises (n : node) (s : store) (id : string),
      references id n -> kernel_params s !! id = None ->
      exists e, _eval ctor_raises op_raises false n s = inl e) /\
  (forall (n : node) (s : store) (id : string),
      in_grammar n -> types_known s ->
      references id n -> kernel_params s !! id = None ->
      _eval ctor_total op_total false n s = inl ValueError).
Proof.
  intros Hparse. split; [|split].
  - unfold gp_kernel. rewrite Hparse. eexists. vm_compute. reflexivity.
  - intros ctor_raises op_raises n s id. apply eval_undeclared_fails.
  - intros n s id. apply eval_grammar_undeclared.
Qed.

Lemma kernel_expression_eval_witness :
  example_parse example_text = inr example_tree /\
  exists s', gp_kernel ctor_total op_total false example_parse (Some example_text) example_store
             = inr (example_kernel, s').
Proof.
  assert (H : example_parse example_text = inr example_tree) by reflexivity.
  split; [exact H|].
  exact (proj1 (kernel_expression_eval example_parse H)).
Defined.

(** C5, as stated, fails on [a - c]: [c] has no parameter set and
    defaulting is disabled, yet the evaluation ends with the [KeyError] of
    the operator table, raised before either operand is looked at.  The same
    happens on [a + c] when the parameter set of [a] names an unknown
    kernel type. *)
Lemma kernel_undeclared_name_other_error :
  let minus := BinOp (Name "a") Sub (Name "c") in
  let plus := BinOp (Name "a") Add (Name "c") in
  let odd := Store {[ "a"%string := {[ "type"%string := PStr "cubic" ]} ]} ∅ in
  references "c" minus /\ kernel_params example_store !! "c"%string = None /\
  _eval ctor_total op_total false minus example_store = inl KeyError /\
  references "c" plus /\ kernel_params odd !! "c"%string = None /\
  _eval ctor_total op_total false plus odd = inl KeyError /\
  ~ (forall (n : node) (s : store) (id : string),
        references id n -> kernel_params s !! id = None ->
        _eval ctor_total op_total false n s = inl ValueError).
Proof.
  intros minus plus odd.
  assert (Hc : kernel_params example_store !! "c"%string = None) by (vm_compute; reflexivity).
  assert (He : _eval ctor_total op_total false minus example_store = inl KeyError)
    by reflexivity.
  refine (conj _ (conj _ (conj _ (conj _ (conj _ (conj _ _)))))).
  - right. reflexivity.
  - exact Hc.
  - exact He.
  - right. reflexivity.
  - vm_compute. reflexivity.
  - vm_compute. reflexivity.
  - intros H. specialize (H minus example_store "c"%string (or_intror eq_refl) Hc).
    rewrite He in H. discriminate.
Qed.

End KernelClaims.

Section MapperClaims.

Import Mapper.

(** C6, as the code has it.  For a categorical column of [adata.obs] the
    resolver returns a categorical mapper whose factors are the categories
    the column's type records, in the recorded order.  Every value observed
    in the column is among them; and they are exactly the observed values
    when every recorded category occurs in some row. *)
Theorem categorical_factors_are_recorded_categories
        (adata : AnnData) (key : string)
        (categories : list string) (codes : list (option nat)) :
  obs adata !! key = Some (Categorical categories codes) ->
  (exists p, _create_mapper adata key = inr (CategoricalColorMapper p categories)) /\
  (forall v, In (Some v) (observed categories codes) -> In v categories) /\
  ((forall c, In c categories -> In (Some c) (observed categories codes)) ->
   forall v, In v categories <-> In (Some v) (observed categories codes)).
Proof.
  intros Hcol. split; [|split].
  - unfold _create_mapper. rewrite Hcol. eexists. reflexivity.
  - intros v. apply observed_in_categories.
  - intros Hall v. split; [apply Hall | apply observed_in_categories].
Qed.

Lemma categorical_factors_are_recorded_categories_witness :
  obs example_adata !! "louvain"%string =
    Some (Categorical ["B"%string; "NK"%string; "T"%string] [Some 2; Some 0; Some 2]) /\
  exists p, _create_mapper example_adata "louvain"
            = inr (CategoricalColorMapper p ["B"%string; "NK"%string; "T"%string]).
Proof.
  assert (H : obs example_adata !! "louvain"%string =
              Some (Categorical ["B"%string; "NK"%string; "T"%string] [Some 2; Some 0; Some 2]))
    by (vm_compute; reflexivity).
  split; [exact H|].
  exact (proj1 (categorical_factors_are_recorded_categories example_adata "louvain" _ _ H)).
Defined.

(** C6, as stated, fails on a column whose type records a category that no
    row carries: ["NK"] is a factor of the mapper and is not observed. *)
Lemma categorical_factor_not_observed :
  exists p factors,
    _create_mapper example_adata "louvain" = inr (CategoricalColorMapper p factors) /\
    In "NK"%string factors /\
    ~ In (Some "NK"%string)
         (observed ["B"%string; "NK"%string; "T"%string] [Some 2; Some 0; Some 2]) /\
    ~ (forall v, In v factors <->
                 In (Some v) (observed ["B"%string; "NK"%string; "T"%string]
                                       [Some 2; Some 0; Some 2])).
Proof.
  assert (Hno : ~ In (Some "NK"%string)
                  (observed ["B"%string; "NK"%string; "T"%string] [Some 2; Some 0; Some 2])).
  { simpl. intros [H|[H|[H|[]]]]; discriminate. }
  do 2 eexists. split; [vm_compute; reflexivity|].
  split; [right; left; reflexivity|]. split; [exact Hno|].
  intros H. apply Hno. apply H. right. left. reflexivity.
Qed.

(** C7.  For a continuous column with at least one value, whether a numeric
    column of [adata.obs] or a variable, the resolver returns a linear
    mapper whose low bound is the minimum and whose high bound is the
    maximum of the values of the column. *)
Theorem continuous_bounds_are_min_max
        (adata : AnnData) (key : string) (vals : list Q) :
  continuous_values adata key = Some vals -> vals <> [] ->
  exists p low high,
    _create_mapper adata key = inr (LinearColorMapper p (Some low) (Some high)) /\
    is_min low vals /\ is_max high vals.
Proof.
  unfold continuous_values, _create_mapper.
  destruct (obs adata !! key) as [[categories codes|vals']|].
  - discriminate.
  - intros [= ->] Hne. destruct vals as [|v rest]; [congruence|].
    do 3 eexists. split; [reflexivity|].
    split; [apply least_is_min | apply greatest_is_max].
  - destruct (index_of key (var_names adata)) as [ix|]; [|discriminate].
    intros -> Hne. destruct vals as [|v rest]; [congruence|].
    do 3 eexists. split; [reflexivity|].
    split; [apply least_is_min | apply greatest_is_max].
Qed.

Lemma continuous_bounds_are_min_max_witness :
  continuous_values example_adata "MS4A1" = Some (map inject_Z [0; 9; 1]%Z) /\
  map inject_Z [0; 9; 1]%Z <> [] /\
  (exists p, _create_mapper example_adata "MS4A1"
             = inr (LinearColorMapper p (Some (inject_Z 0)) (Some (inject_Z 9)))) /\
  exists p low high,
    _create_mapper example_adata "MS4A1" = inr (LinearColorMapper p (Some low) (Some high)) /\
    is_min low (map inject_Z [0; 9; 1]%Z) /\ is_max high (map inject_Z [0; 9; 1]%Z).
Proof.
  assert (H : continuous_values example_adata "MS4A1" = Some (map inject_Z [0; 9; 1]%Z))
    by (vm_compute; reflexivity).
  assert (Hne : map inject_Z [0; 9; 1]%Z <> []) by discriminate.
  split; [exact H|]. split; [exact Hne|].
  split; [eexists; vm_compute; reflexivity|].
  exact (continuous_bounds_are_min_max example_adata "MS4A1" _ H Hne).
Defined.

(** C8.  For a key that is neither a column of [adata.obs] nor one of the
    variable names, the resolver fails on its assertion (the
    [MissingKeyError] of the specification) and returns no mapper. *)
Theorem missing_key_fails (adata : AnnData) (key : string) :
  obs adata !! key = None -> ~ In key (var_names adata) ->
  _create_mapper adata key = inl AssertionError.
Proof.
  intros Hobs Hvar. unfold _create_mapper.
  now rewrite Hobs, (index_of_absent key (var_names adata) Hvar).
Qed.

Lemma missing_key_fails_witness :
  obs example_adata !! "percent_mito"%string = None /\
  ~ In "percent_mito"%string (var_names example_adata) /\
  _create_mapper example_adata "percent_mito" = inl AssertionError.
Proof.
  assert (Hobs : obs example_adata !! "percent_mito"%string = None) by (vm_compute; reflexivity).
  assert (Hvar : ~ In "percent_mito"%string (var_names example_adata)).
  { simpl. intros [H|[H|[]]]; discriminate. }
  split; [exact Hobs|]. split; [exact Hvar|].
  exact (missing_key_fails example_adata "percent_mito" Hobs Hvar).
Defined.

End MapperClaims.

Section HistClaims.

Import Hist.

Local Open Scope Z_scope.




End HistClaims.

(** * Further properties of the scripts and assemblers *)

Section RebinMore.

Import JS Rebin.

Lemma fill_lengths (x : list Q) (edges : list num) :
  length (counts (fill x edges (length edges))) = length edges /\
  length (members (fill x edges (length edges))) = length edges.
Proof.
  destruct (fold_place_ok x edges (seq 0 (length x))
              (Tally (replicate (length edges) 0) (replicate (length edges) []))
              (init_tally_ok (length edges))) as [Hl Hc].
  unfold fill. split; [exact Hl|].
  etransitivity; [|exact Hl]. rewrite Hc. now rewrite length_map.
Qed.

Lemma rebin_lengths (samples : list Q) (n_bins : nat) :
  length (hist (_inter_hist_js_code samples n_bins)) = n_bins /\
  length (l_edges (_inter_hist_js_code samples n_bins)) = n_bins /\
  length (r_edges (_inter_hist_js_code samples n_bins)) = n_bins /\
  length (indices (_inter_hist_js_code samples n_bins)) = n_bins.
Proof.
  simpl. unfold density. rewrite length_imap, l_edges_length, r_edges_length.
  pose proof (fill_lengths (sort_asc samples) (r_edges_of (sort_asc samples) n_bins)) as H.
  rewrite r_edges_length in H. tauto.
Qed.


(** X1.  Whatever the samples and the number of bins (zero included), each
    of the four columns the script writes has exactly [n_bins] cells. *)
Theorem rebin_columns_have_n_bins (samples : list Q) (n_bins : nat) :
  let o := _inter_hist_js_code samples n_bins in
  length (hist o) = n_bins /\ length (l_edges o) = n_bins /\
  length (r_edges o) = n_bins /\ length (indices o) = n_bins.
Proof. intros o. apply rebin_lengths. Qed.





(** X4.  The script sorts [orig.data['values']] in place: what it leaves
    there is the same samples, none lost or added, in ascending order. *)
Theorem rebin_values_sorted_permutation (samples : list Q) (n_bins : nat) :
  let o := _inter_hist_js_code samples n_bins in
  Permutation (values o) samples /\ StronglySorted Qle (values o).
Proof. simpl. split; [apply sort_asc_perm | apply sort_asc_sorted]. Qed.

Lemma insert_asc_head (a : Q) (l : list Q) :
  Forall (Qle a) l -> insert_asc a l = a :: l.
Proof.
  destruct l as [|b t]; [reflexivity|]. intros H. simpl.
  apply Forall_cons_1 in H as [Hab _].
  apply Qle_bool_iff in Hab. now rewrite Hab.
Qed.

Lemma sort_asc_sorted_id (l : list Q) : StronglySorted Qle l -> sort_asc l = l.
Proof.
  induction 1 as [|a t Hs IH Ha]; [reflexivity|].
  simpl. rewrite IH. now apply insert_asc_head.
Qed.

(** X5.  Moving the slider again starts from the array the first run
    sorted, and gives what a single run with the new number of bins gives:
    the result depends on the last slider value only. *)
Theorem rebin_again_depends_on_last (samples : list Q) (n m : nat) :
  _inter_hist_js_code (values (_inter_hist_js_code samples n)) m =
  _inter_hist_js_code samples m.
Proof.
  change (values (_inter_hist_js_code samples n)) with (sort_asc samples).
  unfold _inter_hist_js_code.
  now rewrite (sort_asc_sorted_id (sort_asc samples) (sort_asc_sorted samples)).
Qed.

Lemma map_const_replicate {A B : Type} (b : B) (l : list A) :
  map (fun _ => b) l = replicate (length l) b.
Proof. induction l; simpl; congruence. Qed.

Lemma sum_zeros (n : nat) : exists t, JS.sum (map of_nat (replicate n 0)) = Fin t.
Proof.
  unfold JS.sum. generalize 0%Q. induction n as [|n IH]; intros acc; simpl; eauto.
Qed.

(** X6.  On an empty sample array every edge and every density is
    not-a-number and every index list is empty, for any number of bins. *)
Theorem rebin_empty_samples (n_bins : nat) :
  _inter_hist_js_code [] n_bins =
  Output (replicate n_bins NaN) (replicate n_bins NaN) (replicate n_bins NaN)
         (replicate n_bins []) [].
Proof.
  unfold _inter_hist_js_code. simpl sort_asc.
  assert (Hl : l_edges_of [] n_bins = replicate n_bins NaN).
  { unfold l_edges_of. simpl. rewrite (map_const_replicate NaN). now rewrite length_seq. }
  assert (Hr : r_edges_of [] n_bins = replicate n_bins NaN).
  { unfold r_edges_of. simpl. rewrite (map_const_replicate NaN). now rewrite length_seq. }
  rewrite Hl, Hr. unfold fill. simpl. f_equal.
  unfold density. destruct (sum_zeros n_bins) as [t ->].
  apply list_eq. intros i. rewrite list_lookup_imap.
  destruct (decide (i < n_bins)) as [Hi|Hi].
  - rewrite !lookup_replicate_2 by exact Hi. simpl. f_equal.
    rewrite getn_widths by (now rewrite length_replicate).
    unfold getn. rewrite (nth_lookup_Some _ _ _ NaN (lookup_replicate_2 n_bins NaN i Hi)).
    reflexivity.
  - rewrite !(proj1 (lookup_replicate_None _ _ _)) by lia. reflexivity.
Qed.


End RebinMore.

Section ThresholdMore.

Import JS Threshold.


Lemma le_nan_r (a : num) : le a NaN = false.
Proof. now destruct a. Qed.

Lemma add_nan_r (a : num) : add a NaN = NaN.
Proof. now destruct a. Qed.

Lemma branch_test_nan (c : category) (l r : num) :
  cat_min c = NaN \/ cat_max c = NaN \/ l = NaN \/ r = NaN ->
  branch_test c l r = false.
Proof.
  unfold branch_test, ge. intros [H|[H|[H|H]]].
  - now rewrite H.
  - rewrite H, le_nan_r. apply andb_false_r.
  - subst l. now rewrite le_nan_r.
  - subst r. unfold sub at 1. simpl add at 2.
    change (div NaN (Fin 2)) with NaN. now rewrite add_nan_r, le_nan_r.
Qed.

(** X8.  A boundary that does not parse to a number never matches: a branch
    whose minimum or maximum is not-a-number is never taken, and a bin with
    an edge that is not-a-number gets the default label whatever the
    categories. *)
Theorem threshold_nan_never_matches (c : category) (cs : list category) (l r : num) :
  (cat_min c = NaN \/ cat_max c = NaN -> branch_test c l r = false) /\
  (l = NaN \/ r = NaN -> winner cs l r = default_label).
Proof.
  split.
  - intros [H|H]; apply branch_test_nan; tauto.
  - intros H. unfold winner.
    induction cs as [|c' rest IH]; simpl; [reflexivity|].
    rewrite <- branch_test_contains, branch_test_nan by tauto. exact IH.
Qed.






End ThresholdMore.

Section LinkMore.

Import JS Link.

Lemma num_le_trans (a b c : num) : le a b = true -> le b c = true -> le a c = true.
Proof.
  destruct a as [p| | |], b as [q| | |], c as [r| | |]; simpl; try congruence.
  rewrite !Qle_bool_iff. apply Qle_trans.
Qed.

Lemma gt_false_le (x v : num) :
  isNaN x = false -> isNaN v = false -> gt x v = false -> le x v = true.
Proof.
  destruct x, v; simpl; try congruence; intros _ _ H;
    now apply negb_false_iff in H.
Qed.

Lemma le_gt_false (x v : num) : le x v = true -> gt x v = false.
Proof. destruct x, v; simpl; try congruence; intros ->; reflexivity. Qed.

Lemma le_not_nan (a b : num) : le a b = true -> isNaN a = false /\ isNaN b = false.
Proof. destruct a, b; simpl; try congruence; auto. Qed.

Lemma update_color_lookup (f : frame) (first : nat) (v : num) (xs : list num) (i : nat) :
  update_color_code f first v xs !! i =
  (fun x => if isNaN x || (cutoff f && gt x v) || key_differs f first i then NaN else x)
    <$> xs !! i.
Proof. unfold update_color_code. apply list_lookup_imap. Qed.

(** X10.  A value left in the highlight column is the distance of that row
    from the root, the row has the group of the root, and with the cutoff
    enabled the distance is not beyond the slider; every other cell is
    not-a-number.  The column keeps one cell per row. *)
Theorem link_highlight_is_filtered_distance
        (f : frame) (first : nat) (v : num) (xs : list num) (i : nat) (y : num) :
  update_color_code f first v xs !! i = Some y -> isNaN y = false ->
  xs !! i = Some y /\ hl_key f !! first = hl_key f !! i /\
  (cutoff f = true -> gt y v = false) /\
  length (update_color_code f first v xs) = length xs.
Proof.
  rewrite update_color_lookup. intros H Hy.
  destruct (xs !! i) as [x|]; [|discriminate].
  cbn [fmap option_fmap option_map] in H.
  destruct (isNaN x || (cutoff f && gt x v) || key_differs f first i) eqn:E;
    injection H as <-; [discriminate|].
  apply orb_false_iff in E as [E Hk]. apply orb_false_iff in E as [_ Hc].
  split; [reflexivity|]. split.
  - unfold key_differs in Hk. apply negb_false_iff, bool_decide_eq_true in Hk. exact Hk.
  - split; [intros Hcut; now rewrite Hcut in Hc|].
    apply length_imap.
Qed.

Lemma link_highlight_is_filtered_distance_witness :
  update_color_code example_frame 1 (Fin 2) (fins [1; 0; 3]%Z) !! 0 = Some (Fin (inject_Z 1)) /\
  hl_key example_frame !! 1 = hl_key example_frame !! 0.
Proof.
  assert (H : update_color_code example_frame 1 (Fin 2) (fins [1; 0; 3]%Z) !! 0
              = Some (Fin (inject_Z 1))) by reflexivity.
  split; [exact H|].
  exact (proj1 (proj2 (link_highlight_is_filtered_distance
                         example_frame 1 (Fin 2) (fins [1; 0; 3]%Z) 0 _ H eq_refl))).
Defined.

(** X11.  Raising the cutoff never hides a row: a value shown under a
    cutoff is shown, unchanged, under every larger cutoff. *)
Theorem link_larger_cutoff_shows_more
        (f : frame) (first : nat) (v v' : num) (xs : list num) (i : nat) (y : num) :
  le v v' = true ->
  update_color_code f first v xs !! i = Some y -> isNaN y = false ->
  update_color_code f first v' xs !! i = Some y.
Proof.
  rewrite !update_color_lookup. intros Hvv H Hy.
  destruct (xs !! i) as [x|]; [|discriminate].
  cbn [fmap option_fmap option_map] in H |- *.
  destruct (isNaN x || (cutoff f && gt x v) || key_differs f first i) eqn:E;
    injection H as <-; [discriminate|].
  apply orb_false_iff in E as [E Hk]. apply orb_false_iff in E as [Hx Hc].
  rewrite Hx, Hk. destruct (cutoff f); [|reflexivity].
  rewrite andb_true_l in Hc. rewrite andb_true_l.
  destruct (le_not_nan v v' Hvv) as [Hv Hv'].
  rewrite (le_gt_false x v'); [reflexivity|].
  apply (num_le_trans x v v'); [apply gt_false_le; assumption | exact Hvv].
Qed.

Lemma link_larger_cutoff_shows_more_witness :
  le (Fin 2) (Fin 4) = true /\
  update_color_code example_frame 1 (Fin 4) (fins [1; 0; 3]%Z) !! 0 = Some (Fin (inject_Z 1)).
Proof.
  split; [reflexivity|].
  apply (link_larger_cutoff_shows_more example_frame 1 (Fin 2) (Fin 4));
    reflexivity.
Defined.

(** X12.  With the cutoff disabled the slider only moves the upper bound of
    the colour mapper: the highlight values it leaves do not depend on
    where it is moved to. *)
Theorem link_slider_without_cutoff (f : frame) (st : state) (v v' : num) :
  cutoff f = false ->
  hl_color (step f st (Slide v)) = hl_color (step f st (Slide v')) /\
  mapper_high (step f st (Slide v)) = v.
Proof.
  intros Hc. simpl. unfold slider_callback.
  destruct (column f (col_value st)) as [xs|]; simpl; [|now split].
  split; [|reflexivity]. f_equal. unfold update_color_code.
  rewrite Hc. reflexivity.
Qed.

Lemma link_slider_without_cutoff_witness :
  let f := Frame (dmat example_frame) (hl_key example_frame) false in
  cutoff f = false /\
  hl_color (step f (link_plot f (Fin 5) (Fin 2)) (Slide (Fin 1))) =
  hl_color (step f (link_plot f (Fin 5) (Fin 2)) (Slide (Fin 4))).
Proof.
  intros f. split; [reflexivity|].
  exact (proj1 (link_slider_without_cutoff f (link_plot f (Fin 5) (Fin 2))
                  (Fin 1) (Fin 4) eq_refl)).
Defined.

End LinkMore.

Section LayoutMore.

Import Layout.




Lemma endswith_app (s suffix : string) : endswith (s +:+ suffix) suffix = true.
Proof.
  induction s as [|a s IH]; simpl.
  - destruct suffix; simpl; [reflexivity|]. now rewrite Ascii.eqb_refl, String.eqb_refl.
  - rewrite IH. apply orb_true_r.
Qed.

Lemma prefix_app (s t : string) : String.prefix s (s +:+ t) = true.
Proof.
  induction s as [|a s IH]; simpl; [now destruct t|].
  destruct (Ascii.ascii_dec a a); [exact IH | congruence].
Qed.

Lemma prefix_same (s : string) : String.prefix s s = true.
Proof.
  induction s as [|a s IH]; simpl; [reflexivity|].
  destruct (Ascii.ascii_dec a a); [exact IH | congruence].
Qed.

(** X14.  The path a plot is saved under always ends in [.html]; the given
    name is kept as its beginning, and kept whole when it already ends in
    [.html], so enforcing the suffix twice changes nothing more. *)
Theorem html_suffix_enforced (save : string) :
  endswith (html_path save) ".html" = true /\
  String.prefix save (html_path save) = true /\
  (endswith save ".html" = true -> html_path save = save) /\
  html_path (html_path save) = html_path save /\
  deliver (Some save) = Saved (html_path save) /\ deliver None = Shown.
Proof.
  assert (Hends : endswith (html_path save) ".html" = true).
  { unfold html_path. destruct (endswith save ".html") eqn:E; [exact E|].
    apply endswith_app. }
  split; [exact Hends|]. split.
  - unfold html_path. destruct (endswith save ".html").
    + apply prefix_same.
    + apply prefix_app.
  - split; [intros H; unfold html_path; now rewrite H|].
    split; [|split; reflexivity].
    unfold html_path at 1. now rewrite Hends.
Qed.

End LayoutMore.

Section ColorSelectMore.

Import JS ColorSelect.

Lemma fold_min2_fin (qs : list Q) :
  forall a : Q,
    exists m, fold_left min2 (map Fin qs) (Fin a) = Fin m /\
              In m (a :: qs) /\ forall v, In v (a :: qs) -> (m <= v)%Q.
Proof.
  induction qs as [|w qs IH]; intros a; simpl.
  - exists a. split; [reflexivity|]. split; [now left|].
    intros v [<-|[]]. apply Qle_refl.
  - unfold min2 at 2. simpl. destruct (Qle_bool a w) eqn:E.
    + apply Qle_bool_iff in E. destruct (IH a) as (m & Hm & Hin & Hall).
      exists m. split; [exact Hm|]. split.
      * destruct Hin as [H|H]; [now left | right; now right].
      * intros v [<-|[<-|Hv]]; [apply Hall; now left | | apply Hall; now right].
        eapply Qle_trans; [apply Hall; now left | exact E].
    + assert (Hwa : (w <= a)%Q).
      { destruct (Qlt_le_dec w a) as [L|L]; [now apply Qlt_le_weak|].
        apply Qle_bool_iff in L. congruence. }
      destruct (IH w) as (m & Hm & Hin & Hall).
      exists m. split; [exact Hm|]. split; [now right|].
      intros v [<-|Hv]; [|now apply Hall].
      eapply Qle_trans; [apply Hall; now left | exact Hwa].
Qed.

Lemma fold_max2_fin (qs : list Q) :
  forall a : Q,
    exists m, fold_left max2 (map Fin qs) (Fin a) = Fin m /\
              In m (a :: qs) /\ forall v, In v (a :: qs) -> (v <= m)%Q.
Proof.
  induction qs as [|w qs IH]; intros a; simpl.
  - exists a. split; [reflexivity|]. split; [now left|].
    intros v [<-|[]]. apply Qle_refl.
  - unfold max2 at 2. simpl. destruct (Qle_bool a w) eqn:E.
    + apply Qle_bool_iff in E. destruct (IH w) as (m & Hm & Hin & Hall).
      exists m. split; [exact Hm|]. split; [now right|].
      intros v [<-|Hv]; [|now apply Hall].
      eapply Qle_trans; [exact E | apply Hall; now left].
    + assert (Hwa : (w <= a)%Q).
      { destruct (Qlt_le_dec w a) as [L|L]; [now apply Qlt_le_weak|].
        apply Qle_bool_iff in L. congruence. }
      destruct (IH a) as (m & Hm & Hin & Hall).
      exists m. split; [exact Hm|]. split.
      * destruct Hin as [H|H]; [now left | right; now right].
      * intros v [<-|[<-|Hv]]; [apply Hall; now left | | apply Hall; now right].
        eapply Qle_trans; [exact Hwa | apply Hall; now left].
Qed.

Lemma paint_lookup (colors : list string) (spec : color_spec) (c : string) :
  forall glyph : gmap string color_spec,
    In c colors \/ glyph !! c = Some spec ->
    paint colors spec glyph !! c = Some spec.
Proof.
  unfold paint. induction colors as [|c' rest IH]; intros glyph H; simpl.
  - destruct H as [[]|H]. exact H.
  - apply IH. destruct (decide (c' = c)) as [->|Hne].
    + right. apply lookup_insert_eq.
    + destruct H as [[H|H]|H]; [congruence | now left |].
      right. now rewrite lookup_insert_ne.
Qed.

(** X15.  When the select takes a column that has a mapper and at least one
    value, all finite, the script sets the bounds of the colour bar to the
    smallest and the largest value of the column, its palette to the palette
    of the mapper, and points every colour attribute of every renderer at
    the column. *)
Theorem color_select_rescales
        (colors : list string) (cmaps : gmap string Mapper.ColorMapper)
        (source : gmap string (list num)) (chosen : string) (st : state)
        (tr : Mapper.ColorMapper) (qs : list Q) :
  cmaps !! chosen = Some tr -> source !! chosen = Some (map Fin qs) -> qs <> [] ->
  let st' := run colors cmaps source chosen st in
  (exists low high,
      bar_low st' = Fin low /\ bar_high st' = Fin high /\
      Mapper.is_min low qs /\ Mapper.is_max high qs) /\
  bar_palette st' = palette_of tr /\
  length (glyphs st') = length (glyphs st) /\
  forall g c, In g (glyphs st') -> In c colors -> g !! c = Some (ColorSpec chosen tr).
Proof.
  intros Hm Hs Hne st'. unfold st', run. rewrite Hm, Hs. simpl.
  destruct qs as [|q rest]; [congruence|]. split.
  - destruct (fold_min2_fin rest q) as (lo & Hlo & Hlin & Hlall).
    destruct (fold_max2_fin rest q) as (hi & Hhi & Hhin & Hhall).
    exists lo, hi. simpl.
    change (min2 PInf (Fin q)) with (Fin q). change (max2 NInf (Fin q)) with (Fin q).
    rewrite Hlo, Hhi. repeat split; assumption.
  - split; [reflexivity|]. split; [apply length_map|].
    intros g c Hg Hc. apply in_map_iff in Hg as (g0 & <- & _).
    apply paint_lookup. now left.
Qed.

Lemma color_select_rescales_witness :
  let cmaps : gmap string Mapper.ColorMapper :=
    {[ "n_counts"%string := Mapper.LinearColorMapper (Mapper.Viridis 3 [0; 1; 2]) None None ]} in
  let source : gmap string (list num) := {[ "n_counts"%string := fins [7; 3; 12]%Z ]} in
  let st' := run ["color"%string] cmaps source "n_counts" (State [∅] NaN NaN (Mapper.Stored [])) in
  bar_low st' = Fin (inject_Z 3) /\ bar_high st' = Fin (inject_Z 12) /\
  exists low high, bar_low st' = Fin low /\ bar_high st' = Fin high /\
                   Mapper.is_min low (map inject_Z [7; 3; 12]%Z) /\
                   Mapper.is_max high (map inject_Z [7; 3; 12]%Z).
Proof.
  intros cmaps source st'.
  split; [vm_compute; reflexivity|]. split; [vm_compute; reflexivity|].
  refine (proj1 (color_select_rescales ["color"%string] cmaps source "n_counts"
                   (State [∅] NaN NaN (Mapper.Stored []))
                   (Mapper.LinearColorMapper (Mapper.Viridis 3 [0; 1; 2]) None None)
                   (map inject_Z [7; 3; 12]%Z) _ _ _)).
  - vm_compute. reflexivity.
  - vm_compute. reflexivity.
  - discriminate.
Defined.

Lemma fold_min2_nan (l : list num) :
  forall acc, isNaN acc = true \/ In NaN l -> fold_left min2 l acc = NaN.
Proof.
  induction l as [|a t IH]; intros acc H; simpl.
  - destruct H as [H|[]]. now destruct acc.
  - apply IH. destruct H as [H|[->|H]]; [left | left | now right].
    + unfold min2. now rewrite H.
    + unfold min2. now rewrite orb_true_r.
Qed.

Lemma fold_max2_nan (l : list num) :
  forall acc, isNaN acc = true \/ In NaN l -> fold_left max2 l acc = NaN.
Proof.
  induction l as [|a t IH]; intros acc H; simpl.
  - destruct H as [H|[]]. now destruct acc.
  - apply IH. destruct H as [H|[->|H]]; [left | left | now right].
    + unfold max2. now rewrite H.
    + unfold max2. now rewrite orb_true_r.
Qed.

(** X16.  The edges of the colour select.  No script is generated for an
    empty list of colour attributes; a value without a mapper leaves
    everything as it was; a column that holds a not-a-number makes both
    bounds not-a-number; an empty or missing column gives the bounds
    [+Infinity] and [-Infinity]. *)
Theorem color_select_edges
        (colors : list string) (cmaps : gmap string Mapper.ColorMapper)
        (source : gmap string (list num)) (chosen : string) (st : state) :
  _inter_color_code [] = inl AssertionError /\
  (cmaps !! chosen = None -> run colors cmaps source chosen st = st) /\
  (forall tr xs, cmaps !! chosen = Some tr -> source !! chosen = Some xs -> In NaN xs ->
     bar_low (run colors cmaps source chosen st) = NaN /\
     bar_high (run colors cmaps source chosen st) = NaN) /\
  (forall tr, cmaps !! chosen = Some tr ->
     source !! chosen = None \/ source !! chosen = Some [] ->
     bar_low (run colors cmaps source chosen st) = PInf /\
     bar_high (run colors cmaps source chosen st) = NInf).
Proof.
  split; [reflexivity|]. split; [intros H; unfold run; now rewrite H|]. split.
  - intros tr xs Hm Hs Hnan. unfold run. rewrite Hm, Hs. simpl.
    split; [apply fold_min2_nan | apply fold_max2_nan]; now right.
  - intros tr Hm [Hs|Hs]; unfold run; rewrite Hm, Hs; split; reflexivity.
Qed.

End ColorSelectMore.

Section KernelMore.

Import Kernel.

Variable ctor_raises : kernel_class -> gmap string pval -> option exn.
Variable op_raises : operation -> value -> value -> option exn.
Variable dflt : bool.

(** X17.  Only the trees of the grammar evaluate: when the evaluator returns
    a value, the expression is made of numbers and names under [+], [*] and
    [**] alone, whatever the parameter sets, the library and the
    defaulting. *)
Theorem kernel_value_only_from_grammar (n : node) :
  forall (s s' : store) (v : value),
    _eval ctor_raises op_raises dflt n s = inr (v, s') -> in_grammar n.
Proof.
  induction n as [x|id|lhs IHl op rhs IHr|op operand IH|]; intros s s' v; simpl.
  - trivial.
  - trivial.
  - destruct (operators op) as [f|] eqn:Ef; [|discriminate]. unfold bind.
    destruct (_eval _ _ dflt lhs s) as [e|[a s1]] eqn:El; [discriminate|].
    destruct (_eval _ _ dflt rhs s1) as [e|[b s2]] eqn:Er; [discriminate|].
    intros _. split; [eauto|]. split; [eapply IHl | eapply IHr]; eassumption.
  - destruct (operators op); [|discriminate]. unfold bind.
    destruct (_eval _ _ dflt operand s) as [e|[a s1]]; discriminate.
  - discriminate.
Qed.


(** X19.  Without an expression the Gaussian-process branch takes the single
    declared name as the expression: it fails on its assertion when the
    number of parameter sets is not one, and with exactly one it does what
    it does when given that name as the expression. *)
Theorem gp_kernel_single_set (parse : string -> exn + node) (s : store) :
  (size (kernel_params s) <> 1 ->
   gp_kernel ctor_raises op_raises dflt parse None s = inl AssertionError) /\
  (forall key params,
      kernel_params s = {[ key := params ]} ->
      gp_kernel ctor_raises op_raises dflt parse None s =
      gp_kernel ctor_raises op_raises dflt parse (Some key) s).
Proof.
  split.
  - intros Hsize. unfold gp_kernel.
    rewrite <- length_map_to_list in Hsize.
    destruct (map_to_list (kernel_params s)) as [|[k p] [|kp rest]];
      simpl in Hsize; try reflexivity. lia.
  - intros key params Hk. unfold gp_kernel. rewrite Hk.
    now rewrite map_to_list_singleton.
Qed.

End KernelMore.

Lemma kernel_value_only_from_grammar_witness :
  (exists r, Kernel._eval Kernel.ctor_total Kernel.op_total false example_tree example_store
             = inr r) /\
  Kernel.in_grammar example_tree.
Proof.
  assert (H : exists v s', Kernel._eval Kernel.ctor_total Kernel.op_total false
                             example_tree example_store = inr (v, s'))
    by (do 2 eexists; vm_compute; reflexivity).
  destruct H as (v & s' & H). split; [eauto|].
  exact (kernel_value_only_from_grammar Kernel.ctor_total Kernel.op_total false
           example_tree example_store s' v H).
Defined.


Section KernelDefaulting.

Import Kernel.

Lemma eval_defaulting (n : node) :
  forall s : store,
    in_grammar n -> types_known s -> default_type_known s ->
    exists v s', _eval ctor_total op_total true n s = inr (v, s') /\
                 types_known s' /\ default_type_known s'.
Proof.
  induction n as [x|id|lhs IHl op rhs IHr|op operand IH|]; intros s Hg Hk Hd; simpl in *.
  - eauto.
  - unfold bind, declared, pop_type. simpl.
    destruct (kernel_params s !! id) as [params|] eqn:E.
    + unfold build. simpl.
      destruct (kernels_popped params) as [cls Hcls]; [intros t; apply (Hk id params t E)|].
      rewrite Hcls. simpl. do 2 eexists. split; [reflexivity|]. split; [|exact Hd].
      intros id' params' t. simpl.
      destruct (decide (id = id')) as [<-|Hne].
      * rewrite lookup_insert_eq. intros [= <-]. now rewrite lookup_delete_eq.
      * rewrite lookup_insert_ne by exact Hne. apply Hk.
    + unfold build. simpl.
      destruct (kernels_popped (kernel_default_params s) Hd) as [cls Hcls].
      rewrite Hcls. simpl. do 2 eexists. split; [reflexivity|]. split; [exact Hk|].
      intros t. simpl. now rewrite lookup_delete_eq.
  - destruct Hg as ([f Hf] & Hgl & Hgr). rewrite Hf. unfold bind.
    destruct (IHl s Hgl Hk Hd) as (a & s1 & -> & Hk1 & Hd1).
    destruct (IHr s1 Hgr Hk1 Hd1) as (b & s2 & -> & Hk2 & Hd2).
    unfold call. simpl. eauto.
  - destruct Hg.
  - destruct Hg.
Qed.

(** X20.  With defaulting enabled every expression of the grammar builds a
    kernel, declared or not its names, provided the parameter sets, the
    default one included, name kernels of the table and the library calls
    succeed; an undeclared name gets the kernel of the default parameters,
    [RBF] when they name none. *)
Theorem kernel_defaulting_builds (n : node) (s : store) :
  in_grammar n -> types_known s ->
  (forall t, kernel_default_params s !! "type"%string = Some t -> is_Some (kernels t)) ->
  (exists v s', _eval ctor_total op_total true n s = inr (v, s')) /\
  (forall id, kernel_params s !! id = None ->
              kernel_default_params s !! "type"%string = None ->
              _eval ctor_total op_total true (Name id) s =
              inr (Call RBF (kernel_default_params s), s)).
Proof.
  intros Hg Hk Hd. split.
  - destruct (eval_defaulting n s Hg Hk Hd) as (v & s' & H & _). eauto.
  - intros id Hid Ht. simpl. unfold bind, declared, pop_type. rewrite Hid.
    simpl. unfold popped. rewrite Ht. unfold build. simpl. unfold ret.
    rewrite (delete_id (kernel_default_params s)) by exact Ht.
    now destruct s.
Qed.

End KernelDefaulting.

Lemma kernel_defaulting_builds_witness :
  Kernel.in_grammar example_tree /\
  exists v s', Kernel._eval Kernel.ctor_total Kernel.op_total true example_tree
                            (Kernel.Store ∅ ∅) = inr (v, s').
Proof.
  assert (Hg : Kernel.in_grammar example_tree) by (simpl; eauto 10).
  split; [exact Hg|].
  refine (proj1 (kernel_defaulting_builds example_tree (Kernel.Store ∅ ∅) Hg _ _)).
  - intros id params t H. simpl in H. rewrite lookup_empty in H. discriminate.
  - intros t H. simpl in H. rewrite lookup_empty in H. discriminate.
Defined.

Section SmoothMore.

Import Kernel Smooth.

Variable ctor_raises : kernel_class -> gmap string pval -> option Kernel.exn.
Variable op_raises : operation -> value -> value -> option Kernel.exn.
Variable dflt : bool.
Variable parse : string -> Kernel.exn + node.



Lemma eval_name_declared (id : string) (params : gmap string pval) (s : store) :
  kernel_params s !! id = Some params ->
  _eval ctor_raises op_raises dflt (Name id) s =
  build ctor_raises (popped params) (delete "type"%string params)
        (Store (<[id := delete "type"%string params]> (kernel_params s))
               (kernel_default_params s)).
Proof.
  intros Hp. simpl. unfold bind, declared, pop_type. rewrite Hp.
  rewrite bool_decide_eq_true_2 by eauto. rewrite andb_false_r. simpl.
  now rewrite Hp.
Qed.


(** X22.  A mode other than the two known ones ends in a [ValueError]; and
    in kernel-ridge mode the kernel expression, the kernel parameter sets,
    the parser and the defaulting play no part in the regressor. *)
Theorem smooth_mode_dispatch
        (mode : string) (kernel_expr : option string)
        (opt_params : gmap string pval) (s : store) :
  (mode <> "krr"%string -> mode <> "gp"%string ->
   _smooth_expression ctor_raises op_raises dflt parse mode kernel_expr opt_params s
   = inl ValueError) /\
  (forall ctor' op' dflt' parse' kernel_expr' kernel_params',
      _smooth_expression ctor' op' dflt' parse' "krr" kernel_expr' opt_params
                         (Store kernel_params' (kernel_default_params s)) =
      _smooth_expression ctor_raises op_raises dflt parse "krr" kernel_expr opt_params s).
Proof.
  split.
  - intros H1 H2. unfold _smooth_expression.
    apply String.eqb_neq in H1, H2. now rewrite H1, H2.
  - reflexivity.
Qed.

(** X23.  As [gene_trend] calls it, with the one parameter set
    [k = {length_scale}] and no expression, the Gaussian-process branch
    reads the expression [k] and fits an [RBF] kernel of that length scale,
    with the standard deviation of the targets as noise level unless
    [alpha] is given. *)
Theorem gene_trend_fits_rbf (length_scale : pval) (opt_params : gmap string pval)
        (defaults : gmap string pval) :
  parse "k" = inr (Name "k") ->
  ctor_raises RBF {[ "length_scale"%string := length_scale ]} = None ->
  exists rest,
    _smooth_expression ctor_raises op_raises dflt parse "gp" None opt_params
      (Store {[ "k"%string := {[ "length_scale"%string := length_scale ]} ]} defaults) =
    inr (GaussianProcessRegressor
           (match opt_params !! "alpha"%string with Some a => Given a | None => StdOfTargets end)
           (opt_params !! "optimizer"%string)
           (Call RBF {[ "length_scale"%string := length_scale ]})
           rest).
Proof.
  intros Hparse Hctor. unfold _smooth_expression. simpl String.eqb. cbv iota.
  unfold gp_kernel. cbn [kernel_params]. rewrite map_to_list_singleton, Hparse.
  rewrite (eval_name_declared "k" {[ "length_scale"%string := length_scale ]})
    by (cbn [kernel_params]; apply lookup_singleton_eq).
  unfold popped. rewrite lookup_singleton_ne by discriminate.
  rewrite delete_singleton_ne by discriminate.
  unfold build. cbn [kernels String.eqb Ascii.eqb Bool.eqb]. rewrite Hctor.
  unfold ret. eauto.
Qed.

End SmoothMore.


Lemma gene_trend_fits_rbf_witness :
  let parse := fun text : string =>
                 if String.eqb text "k" then inr (Kernel.Name "k")
                 else inl Kernel.SyntaxError in
  parse "k"%string = inr (Kernel.Name "k") /\
  exists rest,
    Smooth._smooth_expression Kernel.ctor_total Kernel.op_total false parse "gp" None ∅
      (Kernel.Store {[ "k"%string := {[ "length_scale"%string := Kernel.PNum (2 # 10) ]} ]} ∅) =
    inr (Smooth.GaussianProcessRegressor Smooth.StdOfTargets None
           (Kernel.Call Kernel.RBF {[ "length_scale"%string := Kernel.PNum (2 # 10) ]}) rest).
Proof.
  intros parse. split; [reflexivity|].
  exact (gene_trend_fits_rbf Kernel.ctor_total Kernel.op_total false parse
           (Kernel.PNum (2 # 10)) ∅ ∅ eq_refl eq_refl).
Defined.

Section HistMore.

Import Hist.

Local Open Scope Z_scope.

Lemma last_count_le_largest (groups : list group) :
  0 <= last_count groups <= largest groups.
Proof.
  unfold last_count, largest.
  induction (filter non_empty groups) as [|g l IH]; [simpl; lia|].
  destruct l as [|g' l'].
  - simpl. lia.
  - change (last (g :: g' :: l')) with (last (g' :: l')).
    cbn [foldr]. cbn [foldr] in IH. lia.
Qed.

Lemma largest_take_mono (keys : list (list group)) (j k : nat) :
  (j <= k)%nat ->
  largest (concat (take j keys)) <= largest (concat (take k keys)).
Proof.
  intros Hjk.
  rewrite <- (take_drop j (take k keys)), take_take, (Nat.min_l j k Hjk).
  rewrite concat_app, largest_app. lia.
Qed.

Lemma largest_of_key (keys : list (list group)) (k : nat) (groups : list group) :
  keys !! k = Some groups ->
  largest groups <= largest (concat (take (S k) keys)).
Proof.
  intros Hk. rewrite (take_S_r keys k groups Hk), concat_app, largest_app.
  simpl. rewrite app_nil_r. lia.
Qed.

(** X24.  The sliders [interactive_hist] builds are well formed.  A
    [max_bins] below one is refused with a [ValueError]; otherwise every
    slider starts at 1, moves in steps of 1, has its value between 0 and
    its end, ends no lower than [max_bins], and the ends never decrease from
    one key to the next. *)
Theorem hist_sliders_well_formed (max_bins : Z) (keys : list (list group)) :
  (max_bins < 1 -> interactive_hist max_bins keys = inl ValueError) /\
  (forall ss,
      interactive_hist max_bins keys = inr ss ->
      (forall k s, ss !! k = Some s ->
                   start s = 1 /\ step s = 1 /\
                   0 <= value s <= end_ s /\ 1 <= max_bins <= end_ s) /\
      (forall j k s t, (j <= k)%nat -> ss !! j = Some s -> ss !! k = Some t ->
                       end_ s <= end_ t)).
Proof.
  unfold interactive_hist. split.
  - intros H. now rewrite (proj2 (Z.ltb_lt max_bins 1)).
  - intros ss. destruct (max_bins <? 1) eqn:E; [discriminate|].
    apply Z.ltb_ge in E. intros [= <-].
    assert (Hkey : forall k s, sliders max_bins keys !! k = Some s ->
              exists groups, keys !! k = Some groups /\
                end_ s = Z.max max_bins (largest (concat (take (S k) keys))) /\
                value s = last_count groups /\ start s = 1 /\ step s = 1).
    { intros k s Hs.
      destruct (keys !! k) as [groups|] eqn:Hk.
      - destruct (sliders_spec keys max_bins k groups) as (s' & Hs' & H); [lia | exact Hk |].
        rewrite Hs in Hs'. injection Hs' as <-. now exists groups.
      - apply lookup_ge_None in Hk. apply lookup_lt_Some in Hs.
        rewrite sliders_length in Hs. lia. }
    split.
    + intros k s Hs. destruct (Hkey k s Hs) as (groups & Hk & He & Hv & Hst & Hsp).
      pose proof (last_count_le_largest groups).
      pose proof (largest_of_key keys k groups Hk). lia.
    + intros j k s t Hjk Hs Ht.
      destruct (Hkey j s Hs) as (_ & _ & He & _).
      destruct (Hkey k t Ht) as (_ & _ & He' & _).
      pose proof (largest_take_mono keys (S j) (S k)). lia.
Qed.

End HistMore.

Section MapperMore.

Import Mapper.

Lemma unique_spec (l : list (option string)) :
  NoDup (unique l) /\ forall v, v ∈ unique l <-> v ∈ l.
Proof.
  induction l as [|a l [IHn IHm]]; simpl.
  - split; [constructor | reflexivity].
  - split.
    + apply NoDup_cons. split.
      * rewrite list_elem_of_filter. intros [H _].
        rewrite bool_decide_eq_true_2 in H by reflexivity. exact H.
      * now apply NoDup_filter.
    + intros v. rewrite !elem_of_cons, list_elem_of_filter, IHm. split.
      * intros [->|[_ H]]; auto.
      * intros [->|H]; [now left|].
        destruct (decide (v = a)) as [->|Hne]; [now left|]. right.
        split; [|exact H]. rewrite bool_decide_eq_false_2 by exact Hne. exact I.
Qed.

Lemma last_index_absent (v : option string) (l : list (option string)) :
  v ∉ l -> last_index (fun v w => bool_decide (v = w)) v l = None.
Proof.
  induction l as [|a l IH]; intros Hn; simpl; [reflexivity|].
  rewrite not_elem_of_cons in Hn. destruct Hn as [Hne Hn].
  rewrite (IH Hn). now rewrite bool_decide_eq_false_2.
Qed.

Lemma last_index_present (v : option string) (l : list (option string)) :
  v ∈ l -> exists k, last_index (fun v w => bool_decide (v = w)) v l = Some k.
Proof.
  induction l as [|a l IH]; intros Hin; [inversion Hin|]. simpl.
  destruct (last_index _ v l) as [k|] eqn:E; [eauto|].
  apply elem_of_cons in Hin. destruct Hin as [->|Hin].
  - rewrite bool_decide_eq_true_2 by reflexivity. eauto.
  - destruct (IH Hin) as [k Hk]. discriminate.
Qed.

Lemma positions_distinct (l : list (option string)) :
  NoDup l -> positions (fun v w => bool_decide (v = w)) l = seq 0 (length l).
Proof.
  unfold positions. induction l as [|a l IH]; intros Hnd; [reflexivity|].
  apply NoDup_cons in Hnd. destruct Hnd as [Ha Hnd].
  cbn [map length seq]. f_equal.
  - cbn [last_index]. rewrite (last_index_absent a l Ha).
    now rewrite bool_decide_eq_true_2.
  - rewrite <- seq_shift, <- (IH Hnd), map_map. apply map_ext_in.
    intros v Hv. apply list_elem_of_In in Hv.
    cbn [last_index]. destruct (last_index_present v l Hv) as [k ->]. reflexivity.
Qed.

(** X25.  Where the palette of a mapper comes from: it is the list stored
    under [<key>_colors] exactly when the key names a column of
    [adata.obs] and such a list is stored; a key resolved as a variable
    never uses the stored colours. *)
Theorem mapper_palette_source (adata : AnnData) (key : string) (m : ColorMapper) :
  _create_mapper adata key = inr m ->
  forall colors,
    ColorSelect.palette_of m = Stored colors <->
    is_Some (obs adata !! key) /\ uns adata !! (key +:+ "_colors")%string = Some colors.
Proof.
  unfold _create_mapper. intros H colors.
  destruct (obs adata !! key) as [col|].
  - destruct (uns adata !! (key +:+ "_colors")%string) as [stored|];
      destruct col; injection H as <-; simpl; split;
      try (intros [= ->]; split; [eauto | reflexivity]);
      try (intros [_ [= ->]]; reflexivity);
      try discriminate; intros [_ ?]; discriminate.
  - destruct (index_of key (var_names adata)); [|discriminate].
    destruct (column_of (X adata) n); [|discriminate].
    destruct (np_min l), (np_max l); try discriminate.
    injection H as <-. simpl. split; [discriminate|].
    intros [[? ?] _]. discriminate.
Qed.

Lemma mapper_palette_source_witness :
  _create_mapper example_adata "CD3E" =
    inr (LinearColorMapper (Viridis 3 [0; 1; 2]) (Some (inject_Z 0)) (Some (inject_Z 6))) /\
  (ColorSelect.palette_of
     (LinearColorMapper (Viridis 3 [0; 1; 2]) (Some (inject_Z 0)) (Some (inject_Z 6)))
   = Stored ["#440154"%string] <->
   is_Some (obs example_adata !! "CD3E"%string) /\
   uns example_adata !! ("CD3E" +:+ "_colors")%string = Some ["#440154"%string]).
Proof.
  split; [vm_compute; reflexivity|].
  apply (mapper_palette_source example_adata "CD3E"). vm_compute. reflexivity.
Defined.

(** X26.  The default palette of a categorical column.  With no colours
    stored for the key, the palette is viridis cut into as many levels as
    the column has distinct values, a missing value counted as one, read at
    the levels 0, 1, ... in order, while the factors stay the recorded
    categories: the palette and the factors need not have the same
    length. *)
Theorem categorical_default_palette
        (adata : AnnData) (key : string) (categories : list string)
        (codes : list (option nat)) :
  obs adata !! key = Some (Categorical categories codes) ->
  uns adata !! (key +:+ "_colors")%string = None ->
  exists (k : nat) (distinct : list (option string)),
    _create_mapper adata key =
      inr (CategoricalColorMapper (Viridis k (seq 0 k)) categories) /\
    NoDup distinct /\ length distinct = k /\
    forall v, v ∈ distinct <-> v ∈ observed categories codes.
Proof.
  intros Hobs Huns. unfold _create_mapper. rewrite Hobs, Huns.
  destruct (unique_spec (observed categories codes)) as [Hnd Hmem].
  exists (length (unique (observed categories codes))), (unique (observed categories codes)).
  rewrite (positions_distinct _ Hnd). auto.
Qed.

Lemma categorical_default_palette_witness :
  exists (k : nat) (distinct : list (option string)),
    _create_mapper example_adata "louvain" =
      inr (CategoricalColorMapper (Viridis k (seq 0 k)) ["B"; "NK"; "T"]%string) /\
    NoDup distinct /\ length distinct = k /\ k = 2%nat.
Proof.
  destruct (categorical_default_palette example_adata "louvain"
              ["B"; "NK"; "T"]%string [Some 2; Some 0; Some 2]%nat eq_refl eq_refl)
    as (k & distinct & Hm & Hnd & Hlen & Hmem).
  exists k, distinct. repeat split; try assumption.
  vm_compute in Hm. injection Hm as Hk _. symmetry. exact Hk.
Defined.

End MapperMore.

Section GetMappersMore.

Import Mapper GetMappers.

Lemma insert_sorted_elem (s x : string) (l : list string) :
  x ∈ insert_sorted s l <-> x = s \/ x ∈ l.
Proof.
  induction l as [|t l IH]; simpl.
  - rewrite list_elem_of_singleton, elem_of_nil. tauto.
  - destruct (String.leb s t); rewrite !elem_of_cons; [tauto|].
    rewrite IH. tauto.
Qed.

Lemma sorted_elem (x : string) (l : list string) : x ∈ sorted l <-> x ∈ l.
Proof.
  induction l as [|s l IH]; simpl; [reflexivity|].
  rewrite insert_sorted_elem, elem_of_cons, IH. reflexivity.
Qed.

Lemma not_category_spec (adata : AnnData) (columns cs : list string) :
  not_category adata columns = inr cs ->
  forall c, c ∈ cs <-> c ∈ columns /\ exists vals, obs adata !! c = Some (Numeric vals).
Proof.
  revert cs. induction columns as [|k rest IH]; intros cs; simpl.
  - intros [= <-] c. rewrite !elem_of_nil. tauto.
  - destruct (obs adata !! k) as [col|] eqn:Hk; [|discriminate].
    destruct (not_category adata rest) as [|cs']; [discriminate|].
    intros [= <-] c. specialize (IH cs' eq_refl c).
    destruct col as [cats codes|vals].
    + rewrite IH, elem_of_cons. split; [tauto|].
      intros [[->|Hin] (vals & Hv)]; [congruence | eauto].
    + rewrite !elem_of_cons, IH. split.
      * intros [->|[Hin Hv]]; eauto.
      * intros [[->|Hin] Hv]; auto.
Qed.

Lemma comprehension_spec (adata : AnnData) (keys : list string) (ms : gmap string ColorMapper) :
  comprehension adata keys = inr ms ->
  forall c m, ms !! c = Some m <-> c ∈ keys /\ _create_mapper adata c = inr m.
Proof.
  revert ms. induction keys as [|k rest IH]; intros ms; simpl.
  - intros [= <-] c m. rewrite lookup_empty, elem_of_nil. split; [discriminate | tauto].
  - destruct (_create_mapper adata k) as [|mk] eqn:Hk; [discriminate|].
    destruct (comprehension adata rest) as [|ms']; [discriminate|].
    intros [= <-] c m. specialize (IH ms' eq_refl c m).
    rewrite elem_of_cons. destruct (decide (c = k)) as [->|Hne].
    + rewrite lookup_insert_eq. split.
      * intros [= <-]. auto.
      * intros [_ H]. congruence.
    + rewrite lookup_insert_ne by congruence. rewrite IH. tauto.
Qed.

Lemma comprehension_total (adata : AnnData) (keys : list string) :
  (forall c, c ∈ keys -> exists m, _create_mapper adata c = inr m) ->
  exists ms, comprehension adata keys = inr ms.
Proof.
  induction keys as [|k rest IH]; intros H; simpl; [eauto|].
  destruct (H k) as [m ->]; [left|].
  destruct IH as [ms ->]; [|eauto].
  intros c Hc. apply H. now right.
Qed.

Lemma comprehension_fails (adata : AnnData) (keys : list string) (c : string) (e : Mapper.exn) :
  c ∈ keys -> _create_mapper adata c = inl e ->
  exists e', comprehension adata keys = inl e'.
Proof.
  induction keys as [|k rest IH]; intros Hin He; [inversion Hin|]. simpl.
  destruct (_create_mapper adata k) as [|mk] eqn:Hk; [eauto|].
  apply elem_of_cons in Hin. destruct Hin as [->|Hin]; [congruence|].
  destruct (IH Hin He) as [e' ->]. eauto.
Qed.

Lemma comprehension_same_keys (adata : AnnData) (keys keys' : list string)
      (ms : gmap string ColorMapper) :
  (forall c, c ∈ keys' <-> c ∈ keys) ->
  comprehension adata keys = inr ms -> comprehension adata keys' = inr ms.
Proof.
  intros Hsame Hms.
  pose proof (comprehension_spec adata keys ms Hms) as Hspec.
  destruct (comprehension_total adata keys') as [ms' Hms'].
  { intros c Hc. apply Hsame in Hc.
    destruct (_create_mapper adata c) as [e|m] eqn:Hc'; [|eauto].
    destruct (comprehension_fails adata keys c e Hc Hc') as [e' He']. congruence. }
  rewrite Hms'. f_equal. apply map_eq. intros c. apply option_eq. intros m.
  rewrite (comprehension_spec adata keys' ms' Hms' c m), (Hspec c m), Hsame.
  reflexivity.
Qed.

Lemma keys_elem (sort : bool) (cs genes : list string) (c : string) :
  c ∈ (if sort then sorted cs else cs) ++ (if sort then sorted genes else genes) <->
  c ∈ cs \/ c ∈ genes.
Proof.
  rewrite elem_of_app. destruct sort; [rewrite !sorted_elem|]; reflexivity.
Qed.

(** X27.  When [_get_mappers] has built its dictionary, the keys are the
    columns of [adata.obs] that are not categorical together with the
    requested genes, and every key has the mapper [_create_mapper] gives
    it: a categorical column gets a mapper only when it is asked for as
    a gene.  Sorting changes the order of the keys only: without it the
    same dictionary is built. *)
Theorem get_mappers_keys
        (adata : AnnData) (columns genes : list string) (sort : bool)
        (ms : gmap string ColorMapper) :
  _get_mappers adata columns genes sort = inr ms ->
  (forall c m,
      ms !! c = Some m <->
      ((c ∈ columns /\ exists vals, obs adata !! c = Some (Numeric vals)) \/ c ∈ genes) /\
      _create_mapper adata c = inr m) /\
  _get_mappers adata columns genes (negb sort) = inr ms.
Proof.
  unfold _get_mappers.
  destruct (not_category adata columns) as [|cs] eqn:Hcs; [discriminate|].
  intros Hms. split.
  - intros c m. rewrite (comprehension_spec _ _ _ Hms c m), keys_elem.
    rewrite (not_category_spec _ _ _ Hcs c). reflexivity.
  - eapply comprehension_same_keys; [|exact Hms].
    intros c. now rewrite !keys_elem.
Qed.

Lemma get_mappers_keys_witness :
  exists ms,
    _get_mappers example_adata ["louvain"; "n_counts"]%string ["MS4A1"; "CD3E"]%string true = inr ms /\
    _get_mappers example_adata ["louvain"; "n_counts"]%string ["MS4A1"; "CD3E"]%string false = inr ms /\
    ms !! "louvain"%string = None /\ size ms = 3.
Proof.
  eexists. split; [vm_compute; reflexivity|].
  split.
  - refine (proj2 (get_mappers_keys example_adata ["louvain"; "n_counts"]%string
                                    ["MS4A1"; "CD3E"]%string true _ _)).
    vm_compute. reflexivity.
  - split; vm_compute; reflexivity.
Defined.

Lemma index_of_found (key : string) (names : list string) :
  key ∈ names -> exists ix, index_of key names = Some ix /\ ix < length names.
Proof.
  induction names as [|n rest IH]; intros Hin; [inversion Hin|]. simpl.
  destruct (String.eqb n key) eqn:E; [exists 0; split; [reflexivity | lia]|].
  apply elem_of_cons in Hin. destruct Hin as [->|Hin].
  - rewrite String.eqb_refl in E. discriminate.
  - destruct (IH Hin) as (ix & -> & Hlt). exists (S ix). split; [reflexivity | lia].
Qed.

Lemma column_of_wide (rows : list (list Q)) (ix : nat) :
  Forall (fun row => ix < length row) rows ->
  exists vals, column_of rows ix = Some vals /\ length vals = length rows.
Proof.
  induction 1 as [|row rows Hrow _ IH]; simpl; [eauto|].
  destruct IH as (vals & -> & Hlen).
  destruct (nth_error row ix) as [v|] eqn:E.
  - exists (v :: vals). simpl. auto.
  - apply nth_error_None in E. lia.
Qed.

Lemma create_mapper_known (adata : AnnData) (c : string) :
  rectangular adata ->
  is_Some (obs adata !! c) \/ c ∈ var_names adata ->
  exists m, _create_mapper adata c = inr m.
Proof.
  intros [Hne Hrect] Hc. unfold _create_mapper.
  destruct (obs adata !! c) as [col|] eqn:Hobs.
  - destruct col; eauto.
  - destruct Hc as [[? ?]|Hc]; [discriminate|].
    destruct (index_of_found c (var_names adata) Hc) as (ix & -> & Hlt).
    destruct (column_of_wide (X adata) ix) as (vals & -> & Hlen).
    { eapply Forall_impl; [exact Hrect|]. simpl. intros row ->. exact Hlt. }
    destruct vals as [|v vals]; [|simpl; eauto].
    destruct (X adata); [congruence | discriminate].
Qed.

Lemma create_mapper_unknown (adata : AnnData) (c : string) :
  obs adata !! c = None -> c ∉ var_names adata ->
  _create_mapper adata c = inl AssertionError.
Proof.
  intros Hobs Hvar. unfold _create_mapper. rewrite Hobs.
  rewrite index_of_absent; [reflexivity|]. now rewrite <- list_elem_of_In.
Qed.

Lemma create_mapper_rectangular (adata : AnnData) (c : string) (e : Mapper.exn) :
  rectangular adata -> _create_mapper adata c = inl e -> e = AssertionError.
Proof.
  intros Hrect He.
  destruct (obs adata !! c) as [col|] eqn:Hobs.
  - destruct (create_mapper_known adata c Hrect) as [m Hm]; [left; eauto | congruence].
  - destruct (decide (c ∈ var_names adata)) as [Hin|Hout].
    + destruct (create_mapper_known adata c Hrect) as [m Hm]; [now right | congruence].
    + rewrite (create_mapper_unknown adata c Hobs Hout) in He. congruence.
Qed.

Lemma comprehension_rectangular (adata : AnnData) (keys : list string) (e : exn) :
  rectangular adata -> comprehension adata keys = inl e -> e = MapperError AssertionError.
Proof.
  intros Hrect. induction keys as [|k rest IH]; simpl; [discriminate|].
  destruct (_create_mapper adata k) as [e'|m] eqn:Hk.
  - intros [= <-]. f_equal. eapply create_mapper_rectangular; eassumption.
  - destruct (comprehension adata rest) as [e'|ms]; [|discriminate].
    intros [= <-]. now apply IH.
Qed.

Lemma not_category_total (adata : AnnData) (columns : list string) :
  (forall c, c ∈ columns -> is_Some (obs adata !! c)) ->
  exists cs, not_category adata columns = inr cs.
Proof.
  induction columns as [|c rest IH]; intros H; simpl; [eauto|].
  destruct (H c) as [col ->]; [left|].
  destruct IH as [cs ->]; [|eauto].
  intros c' Hc'. apply H. now right.
Qed.

(** X28.  On a dataset whose [columns] are columns of [adata.obs] and whose
    matrix has a row and, in every row, a cell for every variable,
    [_get_mappers] builds its dictionary when every requested gene is a
    column of [adata.obs] or a variable name, and a single gene that is
    neither makes the whole call fail on the assertion of
    [_create_mapper]: no mapper is returned for the other keys. *)
Theorem get_mappers_unknown_gene
        (adata : AnnData) (columns genes : list string) (sort : bool) :
  (forall c, c ∈ columns -> is_Some (obs adata !! c)) ->
  rectangular adata ->
  ((forall g, g ∈ genes -> is_Some (obs adata !! g) \/ g ∈ var_names adata) ->
   exists ms, _get_mappers adata columns genes sort = inr ms) /\
  (forall g, g ∈ genes -> obs adata !! g = None -> g ∉ var_names adata ->
             _get_mappers adata columns genes sort = inl (MapperError AssertionError)).
Proof.
  intros Hcols Hrect. unfold _get_mappers.
  destruct (not_category_total adata columns Hcols) as [cs Hcs]. rewrite Hcs.
  split.
  - intros Hgenes. apply comprehension_total. intros c Hc.
    apply keys_elem in Hc. apply create_mapper_known; [exact Hrect|].
    destruct Hc as [Hc|Hc]; [|now apply Hgenes].
    apply (not_category_spec _ _ _ Hcs) in Hc. destruct Hc as (_ & vals & Hv).
    left. eauto.
  - intros g Hg Hobs Hvar.
    destruct (comprehension_fails adata
                ((if sort then sorted cs else cs) ++ (if sort then sorted genes else genes))
                g AssertionError) as [e He].
    + apply keys_elem. now right.
    + now apply create_mapper_unknown.
    + rewrite He. f_equal. eapply comprehension_rectangular; eassumption.
Qed.

Lemma example_rectangular : rectangular example_adata.
Proof.
  split; [discriminate|]. repeat constructor.
Qed.

Lemma get_mappers_unknown_gene_witness :
  (exists ms, _get_mappers example_adata ["louvain"; "n_counts"]%string ["CD3E"]%string true
              = inr ms) /\
  _get_mappers example_adata ["louvain"; "n_counts"]%string ["CD3E"; "GATA1"]%string true
  = inl (MapperError AssertionError).
Proof.
  assert (Hcols : forall c, c ∈ ["louvain"; "n_counts"]%string ->
                            is_Some (obs example_adata !! c)).
  { intros c Hc. apply elem_of_cons in Hc. destruct Hc as [->|Hc]; [vm_compute; eauto|].
    apply list_elem_of_singleton in Hc. subst c. vm_compute. eauto. }
  split.
  - apply (get_mappers_unknown_gene example_adata _ ["CD3E"]%string true Hcols
                                    example_rectangular).
    intros g Hg. apply list_elem_of_singleton in Hg. subst g. right. left.
  - apply (proj2 (get_mappers_unknown_gene example_adata _ ["CD3E"; "GATA1"]%string true
                                           Hcols example_rectangular) "GATA1"%string).
    + right. left.
    + vm_compute. reflexivity.
    + intros Hin. apply list_elem_of_In in Hin. simpl in Hin.
      destruct Hin as [H|[H|[]]]; discriminate.
Defined.

End GetMappersMore.

Section GeneTrendMore.

Import Mapper GeneTrend.

Lemma mask_indicator (adata : AnnData) (genes : list string) :
  mask genes (genes_indicator adata genes) =
  filter (fun g => g ∈ var_names adata) genes.
Proof.
  unfold genes_indicator. induction genes as [|g genes IH]; [reflexivity|].
  cbn [map mask]. rewrite filter_cons, IH.
  destruct (decide (g ∈ var_names adata)) as [H|H].
  - now rewrite bool_decide_eq_true_2.
  - now rewrite bool_decide_eq_false_2.
Qed.

Lemma all_indicator (adata : AnnData) (genes : list string) :
  forallb (fun b => b) (genes_indicator adata genes) = true ->
  filter (fun g => g ∈ var_names adata) genes = genes.
Proof.
  unfold genes_indicator. induction genes as [|g genes IH]; [reflexivity|].
  cbn [map forallb]. intros H. apply andb_prop in H. destruct H as [Hg H].
  apply bool_decide_eq_true_1 in Hg.
  rewrite filter_cons_True by exact Hg. now rewrite IH.
Qed.

Lemma kept_genes (adata : AnnData) (genes : list string) :
  (if forallb (fun b => b) (genes_indicator adata genes) then genes
   else mask genes (genes_indicator adata genes)) =
  filter (fun g => g ∈ var_names adata) genes.
Proof.
  destruct (forallb _ _) eqn:E; [now rewrite all_indicator | apply mask_indicator].
Qed.

Lemma check_path_ok (adata : AnnData) (path_key : string) (path : list string) :
  check_path adata path_key path = inr tt <->
  forall p, p ∈ path ->
            exists categories codes,
              obs adata !! path_key = Some (Categorical categories codes) /\
              p ∈ categories.
Proof.
  induction path as [|q rest IH]; simpl.
  - split; [intros _ p Hp; inversion Hp | reflexivity].
  - unfold check_member.
    destruct (obs adata !! path_key) as [[categories codes|vals]|] eqn:Hobs.
    + destruct (decide (q ∈ categories)) as [Hq|Hq].
      * rewrite bool_decide_eq_true_2 by exact Hq. rewrite IH. split.
        -- intros H p Hp. apply elem_of_cons in Hp. destruct Hp as [->|Hp]; eauto.
        -- intros H p Hp. apply H. now right.
      * rewrite bool_decide_eq_false_2 by exact Hq.
        split; [discriminate|]. intros H.
        destruct (H q) as (cats' & codes' & [= <- <-] & Hin); [left|]. contradiction.
    + split; [discriminate|]. intros H.
      destruct (H q) as (? & ? & ? & _); [left|]. discriminate.
    + split; [discriminate|]. intros H.
      destruct (H q) as (? & ? & ? & _); [left|]. discriminate.
Qed.

Lemma check_path_error (adata : AnnData) (path_key : string) (path : list string)
      (categories : list string) (codes : list (option nat)) (e : exn) :
  obs adata !! path_key = Some (Categorical categories codes) ->
  check_path adata path_key path = inl e -> e = AssertionError.
Proof.
  intros Hobs. induction path as [|q rest IH]; simpl; [discriminate|].
  unfold check_member. rewrite Hobs.
  destruct (bool_decide (q ∈ categories)); [exact IH | congruence].
Qed.

Lemma check_paths_ok (adata : AnnData) (path_key : string) (paths : list (list string)) :
  check_paths adata path_key paths = inr tt <->
  forall path p, path ∈ paths -> p ∈ path ->
            exists categories codes,
              obs adata !! path_key = Some (Categorical categories codes) /\
              p ∈ categories.
Proof.
  induction paths as [|path0 rest IH]; simpl.
  - split; [intros _ path p Hp; inversion Hp | reflexivity].
  - pose proof (check_path_ok adata path_key path0) as Hok.
    destruct (check_path adata path_key path0) as [e|[]].
    + split; [discriminate|]. intros H.
      assert (Hno : @inl exn unit e = inr tt); [|discriminate].
      apply Hok. intros p Hp. apply (H path0 p); [left | exact Hp].
    + rewrite IH. split.
      * intros H path p Hpath Hp. apply elem_of_cons in Hpath.
        destruct Hpath as [->|Hpath]; [now apply Hok | eauto].
      * intros H path p Hpath Hp. apply (H path p); [now right | exact Hp].
Qed.

Lemma check_paths_error (adata : AnnData) (path_key : string) (paths : list (list string))
      (categories : list string) (codes : list (option nat)) (e : exn) :
  obs adata !! path_key = Some (Categorical categories codes) ->
  check_paths adata path_key paths = inl e -> e = AssertionError.
Proof.
  intros Hobs. induction paths as [|path0 rest IH]; simpl; [discriminate|].
  destruct (check_path adata path_key path0) as [e'|[]] eqn:E; [|exact IH].
  intros [= <-]. eapply check_path_error; eassumption.
Qed.

(** X29.  What [gene_trend] checks before it plots.  When the checks pass,
    every member of every path is a category of [path_key], the pseudotime
    column exists, and the genes plotted are the requested genes that are
    variable names, in the order given and as often as given: a gene that
    is not a variable is dropped, it is no error.  A path member that is
    not a category fails the assertion before anything else is looked at,
    and a missing pseudotime column is a [ValueError] whatever the
    genes. *)
Theorem gene_trend_checks
        (adata : AnnData) (paths : list (list string)) (genes : list string)
        (path_key color_key : string) :
  (forall gs mapper,
      gene_trend adata paths genes path_key color_key = inr (gs, mapper) <->
      (forall path p, path ∈ paths -> p ∈ path ->
          exists categories codes,
            obs adata !! path_key = Some (Categorical categories codes) /\ p ∈ categories) /\
      is_Some (obs adata !! "dpt_pseudotime"%string) /\
      gs = filter (fun g => g ∈ var_names adata) genes /\
      _create_mapper adata color_key = inr mapper) /\
  (forall categories codes path p,
      obs adata !! path_key = Some (Categorical categories codes) ->
      path ∈ paths -> p ∈ path -> p ∉ categories ->
      gene_trend adata paths genes path_key color_key = inl AssertionError) /\
  (check_paths adata path_key paths = inr tt ->
   obs adata !! "dpt_pseudotime"%string = None ->
   gene_trend adata paths genes path_key color_key = inl ValueError).
Proof.
  unfold gene_trend. rewrite kept_genes.
  pose proof (check_paths_ok adata path_key paths) as Hok.
  split; [|split].
  - intros gs mapper.
    destruct (check_paths adata path_key paths) as [e|[]] eqn:E.
    + split; [discriminate|]. intros [H _]. apply Hok in H. discriminate.
    + destruct (obs adata !! "dpt_pseudotime"%string) as [col|].
      * destruct (_create_mapper adata color_key) as [e|m].
        -- split; [discriminate|]. intros (_ & _ & _ & ?). discriminate.
        -- split.
           ++ intros [= <- <-]. split; [now apply Hok|]. eauto.
           ++ intros (_ & _ & -> & [= ->]). reflexivity.
      * split; [discriminate|]. intros (_ & [? ?] & _). discriminate.
  - intros categories codes path p Hobs Hpath Hp Hout.
    destruct (check_paths adata path_key paths) as [e|[]] eqn:E.
    + f_equal. eapply check_paths_error; eassumption.
    + destruct (proj1 Hok eq_refl path p Hpath Hp) as (cats' & codes' & Hobs' & Hin).
      rewrite Hobs in Hobs'. injection Hobs' as <- <-. contradiction.
  - intros -> ->. reflexivity.
Qed.

End GeneTrendMore.
